(** * Batching, pagination and id resolution of the ESI client

    A shallow embedding of [dist/src/internal/batch.js] and of the [impl]
    namespace of the resource api (the second module of
    [dist/src/internal/search.js]), with the properties the specification
    states about them.

    Conventions of the embedding:
    - an id is an integer ([Z]); [===] on ids and the SameValueZero
      comparison of [Set] and [Map] keys are both equality on [Z];
    - a JavaScript [Set] is the list of its entries in insertion order,
      which is its iteration order;
    - a JavaScript [Map] keyed by ids is a [gmap Z _];
    - a promise is the value it settles to: [Ok v] when it resolves with
      [v], [Err e] when it rejects with [e];
    - an asynchronous generator is the trace it produces when it is
      consumed to the end: the calls it makes and the elements it yields,
      in order;
    - a [for]/[while] loop that need not terminate takes a bound on its
      number of iterations and reports when the bound was reached. *)

From stdpp Require Import gmap list.

Set Warnings "-clear-no-such-hyp".

Abbreviation Id := Z.

(** ** Settled promises and thrown errors *)

Inductive result (E A : Type) : Type :=
  | Ok (a : A)
  | Err (e : E).
Arguments Ok {E A} a.
Arguments Err {E A} e.

(** The [ESIError] of kind [esi:NotFoundError], with the id it reports. *)
Inductive ESIError : Type :=
  | NotFound (id : Id).

(** ** JavaScript [Set] of ids *)

Module JSSet.

Record t : Type := mk { entries : list Id }.

Definition empty : t := mk [].

Definition has (x : Id) (s : t) : bool := bool_decide (x ∈ entries s).

(** [s.add(x)]: a new entry goes last, a present one changes nothing. *)
Definition add (x : Id) (s : t) : t :=
  if has x s then s else mk (entries s ++ [x]).

Definition size (s : t) : nat := length (entries s).

(** [new Set(array)] adds the elements of the array in order. *)
Definition from_array (a : list Id) : t := foldl (λ s x, add x s) empty a.

(** [Array.from(s)] *)
Definition to_array (s : t) : list Id := entries s.

End JSSet.

(** ** Generators as traces *)

(** What a generator does while it is consumed: it calls its requester or
    page loader with an argument and gets a settled promise back, or it
    yields an element to its consumer. *)
Inductive event (A R Y : Type) : Type :=
  | Request (arg : A) (response : R)
  | Yield (y : Y).
Arguments Request {A R Y} arg response.
Arguments Yield {A R Y} y.

(** How the consumption of a generator ends: it returns, it throws, or the
    bound on its loop was reached before either. *)
Inductive completion (E : Type) : Type :=
  | Finished
  | Failed (e : E)
  | Unfinished.
Arguments Finished {E}.
Arguments Failed {E} e.
Arguments Unfinished {E}.

(** [tr] happened, then the rest of the run [k]. *)
Definition after {Ev C : Type} (tr : list Ev) (k : list Ev * C) : list Ev * C :=
  (tr ++ k.1, k.2).

(** The arguments of the calls of a trace, in order. *)
Definition requests {A R Y : Type} (tr : list (event A R Y)) : list (A * R) :=
  omap (λ ev, match ev with Request a r => Some (a, r) | Yield _ => None end) tr.

(** The elements a trace yields, in order. *)
Definition yields {A R Y : Type} (tr : list (event A R Y)) : list Y :=
  omap (λ ev, match ev with Request _ _ => None | Yield y => Some y end) tr.

(** ** batch.js *)

Module Batch.

(** [a.slice(i, e)] for indices [0 <= i] and [0 <= e]; both are clamped
    to the length of the array. *)
Definition slice {A : Type} (a : list A) (i e : nat) : list A :=
  drop i (take e a).

(** The loop of [splitIds], started at index [i] with the groups pushed
    so far; [None] when [fuel] iterations did not end it. *)
Fixpoint splitIds_loop {A : Type} (fuel : nat) (ids : list A)
    (batchSize i : nat) (groups : list (list A)) : option (list (list A)) :=
  match fuel with
  | O => None
  | S fuel' =>
      if i <? length ids then
        let end_ := i + batchSize in
        let end_ := if length ids <? end_ then length ids else end_ in
        splitIds_loop fuel' ids batchSize (i + batchSize)
          (groups ++ [slice ids i end_])
      else Some groups
  end.

Definition splitIds {A : Type} (fuel : nat) (ids : list A)
    (batchSize : nat) : option (list (list A)) :=
  splitIds_loop fuel ids batchSize 0 [].

(** [{ element: e, id: idSet[i] }]; [idSet[i]] is [undefined] past the
    end of [idSet]. *)
Record IDMatched (T : Type) : Type :=
  { element : T; id : option Id }.
Arguments element {T} _.
Arguments id {T} _.

(** [Promise.all]: the array of the values when every promise resolves,
    else a rejection (here the one of the first rejected promise of the
    array). *)
Fixpoint promise_all {E A : Type} (ps : list (result E A)) : result E (list A) :=
  match ps with
  | [] => Ok []
  | Ok a :: ps' =>
      match promise_all ps' with
      | Ok l => Ok (a :: l)
      | Err e => Err e
      end
  | Err e :: _ => Err e
  end.

(** [promise.then(f)] *)
Definition then_ {E A B : Type} (p : result E A) (f : A → B) : result E B :=
  match p with
  | Ok a => Ok (f a)
  | Err e => Err e
  end.

Section Resolver.
Context {E T : Type}.
Variable requester : list Id → result E (list T).

(** [getIDMatchedValues]: the id lists [requester] is called with, one
    call a group in the order of the groups, and the promise returned.
    [None] when the loop of [splitIds] did not end within [fuel]. *)
Definition getIDMatchedValues (fuel : nat) (ids : list Id) (batchSize : nat)
    : option (list (list Id) * result E (list (IDMatched T))) :=
  groups ← splitIds fuel ids batchSize;
  let promises :=
    map (λ idSet,
           then_ (requester idSet)
             (λ valueSet, imap (λ i e, {| element := e; id := idSet !! i |}) valueSet))
        groups in
  Some (groups, then_ (promise_all promises) (λ valueSets, concat valueSets)).

Definition getRawValues (fuel : nat) (ids : list Id) (batchSize : nat)
    : option (list (list Id) * result E (list T)) :=
  r ← getIDMatchedValues fuel ids batchSize;
  Some (r.1, then_ r.2 (λ pairs, map element pairs)).

Definition getBatchedValues {V : Type} (fuel : nat) (ids : list Id)
    (resolver : T → option Id → Id * V) (batchSize : nat)
    : option (list (list Id) * result E (gmap Z V)) :=
  r ← getIDMatchedValues fuel ids batchSize;
  Some (r.1,
        then_ r.2 (λ array,
          foldl (λ map n, let tuple := resolver (element n) (id n) in
                          <[tuple.1 := tuple.2]> map) ∅ array)).

(** One flush of [getIteratedValues]: the request for the ids of
    [idBatch], the pairs yielded from its response, then [k], the rest
    of the run with an empty [idBatch]. *)
Definition flush {P : Type} (resolver : T → option Id → P) (idBatch : JSSet.t)
    (k : list (event (list Id) (result E (list T)) P) * completion E)
    : list (event (list Id) (result E (list T)) P) * completion E :=
  let idArrays := JSSet.to_array idBatch in
  match requester idArrays with
  | Ok array =>
      let values := imap (λ i e, resolver e (idArrays !! i)) array in
      after (Request idArrays (Ok array) :: map Yield values) k
  | Err e => ([Request idArrays (Err e)], Failed e)
  end.

(** [getIteratedValues] over the ids that the source sequence still
    delivers, with the current [idBatch]. *)
Fixpoint getIteratedValues_from {P : Type} (ids : list Id)
    (resolver : T → option Id → P) (batchSize : nat) (idBatch : JSSet.t)
    : list (event (list Id) (result E (list T)) P) * completion E :=
  match ids with
  | id :: ids' =>
      let idBatch := JSSet.add id idBatch in
      if batchSize <=? JSSet.size idBatch then
        flush resolver idBatch
          (getIteratedValues_from ids' resolver batchSize JSSet.empty)
      else getIteratedValues_from ids' resolver batchSize idBatch
  | [] =>
      if 0 <? JSSet.size idBatch then flush resolver idBatch ([], Finished)
      else ([], Finished)
  end.

Definition getIteratedValues {P : Type} (ids : list Id)
    (resolver : T → option Id → P) (batchSize : nat)
    : list (event (list Id) (result E (list T)) P) * completion E :=
  getIteratedValues_from ids resolver batchSize JSSet.empty.


End Resolver.

End Batch.

(** ** resource-api.js, namespace [impl] *)

Module ResourceApi.

(** [map.has(id)] *)
Definition has {T : Type} (map : gmap Z T) (id : Id) : bool :=
  bool_decide (is_Some (map !! id)).

(** [ids.indexOf(x)]: the first index of [x], or [-1]. *)
Fixpoint indexOf_from (ids : list Id) (x : Id) (i : Z) : Z :=
  match ids with
  | [] => -1
  | y :: ids' => if bool_decide (y = x) then i else indexOf_from ids' x (i + 1)
  end.
Definition indexOf (ids : list Id) (x : Id) : Z := indexOf_from ids x 0.

Section Filters.
Context {T : Type}.
Variable resolver : T → Id.

Fixpoint filterArray (resources : list T) (id : Id) : result ESIError T :=
  match resources with
  | value :: rest =>
      if bool_decide (resolver value = id) then Ok value
      else filterArray rest id
  | [] => Err (NotFound id)
  end.

(** The inner loop of [filterArrayToMap]: sets [id] to the first value
    that resolves to it and breaks. *)
Fixpoint bindFirst (resources : list T) (id : Id) (map : gmap Z T) : gmap Z T :=
  match resources with
  | value :: rest =>
      if bool_decide (resolver value = id) then <[id := value]> map
      else bindFirst rest id map
  | [] => map
  end.

(** The outer loop of [filterArrayToMap] over the ids still to do. *)
Fixpoint filterArrayToMap_from (resources : list T) (ids : list Id)
    (map : gmap Z T) : result ESIError (gmap Z T) :=
  match ids with
  | id :: ids' =>
      let map := bindFirst resources id map in
      if negb (has map id) then Err (NotFound id)
      else filterArrayToMap_from resources ids' map
  | [] => Ok map
  end.

Definition filterArrayToMap (resources : list T) (ids : list Id)
    : result ESIError (gmap Z T) :=
  filterArrayToMap_from resources ids ∅.

(** The [for await] loop of [filterIteratedToMap] over the elements the
    sequence delivers: the map collected and the number of elements
    taken from the sequence, [n] of them before this call. *)
Fixpoint collect (resources : list T) (ids : list Id) (map : gmap Z T)
    (n : nat) : gmap Z T * nat :=
  match resources with
  | e :: rest =>
      let eID := resolver e in
      let map := if bool_decide (0 ≤ indexOf ids eID)%Z
                 then <[eID := e]> map else map in
      if bool_decide (size map = length ids) then (map, S n)
      else collect rest ids map (S n)
  | [] => (map, n)
  end.

(** The loop that looks for the first id without an entry. *)
Fixpoint firstMissing (ids : list Id) (map : gmap Z T) : option Id :=
  match ids with
  | id :: ids' => if negb (has map id) then Some id else firstMissing ids' map
  | [] => None
  end.

(** [filterIteratedToMap] on a sequence that delivers [resources]: the
    number of elements it took from the sequence and the promise. *)
Definition filterIteratedToMap (resources : list T) (ids : list Id)
    : nat * result ESIError (gmap Z T) :=
  let '(map, n) := collect resources ids ∅ 0 in
  (n,
   if bool_decide (size map ≠ length ids) then
     match firstMissing ids map with
     | Some id => Err (NotFound id)
     | None => Ok map
     end
   else Ok map).

End Filters.

(** *** SimpleMappedResource *)

(** The argument of the constructor. *)
Inductive IdsArgument : Type :=
  | OfSet (ids : JSSet.t)
  | OfArray (ids : list Id)
  | OfProvider (ids : unit → list Id).

(** The field [ids_]: an array, or the provider function. *)
Inductive SimpleMappedResource : Type :=
  | IdArray (ids_ : list Id)
  | IdProvider (ids_ : unit → list Id).

Definition constructor (ids : IdsArgument) : SimpleMappedResource :=
  match ids with
  | OfSet s => IdArray (JSSet.to_array s)
  | OfArray a => IdArray (JSSet.to_array (JSSet.from_array a))
  | OfProvider f => IdProvider f
  end.

Definition arrayIDs (this : SimpleMappedResource) : list Id :=
  match this with
  | IdArray a => a
  | IdProvider f => f ()
  end.

Definition ids (this : SimpleMappedResource) : JSSet.t :=
  match this with
  | IdArray a => JSSet.from_array a
  | IdProvider f => JSSet.from_array (f ())
  end.

(** *** Streamers *)

(** What a page loader of the page-number streamer resolves to: the
    array of elements, or [{ result, maxPages }] with an optional
    [maxPages]. *)
Inductive PageResults (T : Type) : Type :=
  | Elements (elements : list T)
  | WithMaxPages (result_ : list T) (maxPages : option nat).
Arguments Elements {T} elements.
Arguments WithMaxPages {T} result_ maxPages.

Definition elementsOf {T : Type} (pageResults : PageResults T) : list T :=
  match pageResults with
  | Elements elements => elements
  | WithMaxPages result_ _ => result_
  end.

(** [maxPages] after a response, given its value before. *)
Definition captureMaxPages {T : Type} (pageResults : PageResults T)
    (maxPages : option nat) : option nat :=
  match pageResults with
  | Elements _ => maxPages
  | WithMaxPages _ hint =>
      match hint, maxPages with
      | Some m, None => Some m
      | _, _ => maxPages
      end
  end.

(** [maxPageSize !== undefined && n < maxPageSize] *)
Definition shortPage (maxPageSize : option nat) (n : nat) : bool :=
  match maxPageSize with
  | Some size => n <? size
  | None => false
  end.

(** [maxPages === undefined || page < maxPages] *)
Definition morePages (maxPages : option nat) (page : nat) : bool :=
  match maxPages with
  | None => true
  | Some m => page <? m
  end.

Section Streamers.
Context {E St T : Type}.

(** The [while] loop of [getPageBasedIterator], entered with [fuel]
    as the bound on the pages it still may fetch. The page loader may
    answer differently from call to call: it runs on a state [St]. *)
Fixpoint getPageBasedIterator_from
    (pageLoader : St → nat → result E (PageResults T) * St)
    (maxPageSize : option nat) (fuel : nat) (st : St) (page : nat)
    (maxPages : option nat)
    : list (event nat (result E (PageResults T)) T) * completion E :=
  if morePages maxPages page then
    match fuel with
    | O => ([], Unfinished)
    | S fuel' =>
        let (response, st') := pageLoader st page in
        match response with
        | Ok pageResults =>
            let elements := elementsOf pageResults in
            let maxPages := captureMaxPages pageResults maxPages in
            if length elements =? 0 then ([Request page response], Finished)
            else if shortPage maxPageSize (length elements) then
              (Request page response :: map Yield elements, Finished)
            else
              after (Request page response :: map Yield elements)
                (getPageBasedIterator_from pageLoader maxPageSize fuel' st'
                   (page + 1) maxPages)
        | Err e => ([Request page response], Failed e)
        end
    end
  else ([], Finished).

Definition getPageBasedIterator
    (pageLoader : St → nat → result E (PageResults T) * St)
    (maxPageSize : option nat) (fuel : nat) (st : St)
    : list (event nat (result E (PageResults T)) T) * completion E :=
  getPageBasedIterator_from pageLoader maxPageSize fuel st 1 None.

(** The [while (true)] loop of [getMaxIDIterator]; [maxID] is [None]
    for [undefined]. *)
Fixpoint getMaxIDIterator_from
    (pageLoader : St → option Id → result E (list T) * St)
    (idResolver : T → Id) (maxPageSize : option nat) (fuel : nat) (st : St)
    (maxID : option Id)
    : list (event (option Id) (result E (list T)) T) * completion E :=
  match fuel with
  | O => ([], Unfinished)
  | S fuel' =>
      let (response, st') := pageLoader st maxID in
      match response with
      | Ok pageResults =>
          if length pageResults =? 0 then ([Request maxID response], Finished)
          else if shortPage maxPageSize (length pageResults) then
            (Request maxID response :: map Yield pageResults, Finished)
          else
            after (Request maxID response :: map Yield pageResults)
              (getMaxIDIterator_from pageLoader idResolver maxPageSize fuel' st'
                 (idResolver <$> last pageResults))
      | Err e => ([Request maxID response], Failed e)
      end
  end.

Definition getMaxIDIterator
    (pageLoader : St → option Id → result E (list T) * St)
    (idResolver : T → Id) (maxPageSize : option nat) (fuel : nat) (st : St)
    : list (event (option Id) (result E (list T)) T) * completion E :=
  getMaxIDIterator_from pageLoader idResolver maxPageSize fuel st None.

End Streamers.

(** The [maxPages] hint a trace of the page-number streamer has
    captured: the first one that a response carries. *)
Definition maxPagesHint {E T : Type}
    (tr : list (event nat (result E (PageResults T)) T)) : option nat :=
  head (omap (λ ev, match ev with
                    | Request _ (Ok (WithMaxPages _ (Some m))) => Some m
                    | _ => None
                    end) tr).

(** *** filterIterated and SimpleMappedResource.getResource *)

Section Iterated.
Context {T : Type}.
Variable resolver : T → Id.

(** The [for await] loop of [filterIterated] over the elements the
    sequence delivers, [n] of them taken before: the number of elements
    taken from the sequence and the promise. *)
Fixpoint filterIterated_from (resources : list T) (id : Id) (n : nat)
    : nat * result ESIError T :=
  match resources with
  | e :: rest =>
      if bool_decide (resolver e = id) then (S n, Ok e)
      else filterIterated_from rest id (S n)
  | [] => (n, Err (NotFound id))
  end.

Definition filterIterated (resources : list T) (id : Id)
    : nat * result ESIError T :=
  filterIterated_from resources id 0.

End Iterated.

(** [getResource(loader)] of a [SimpleMappedResource], for the promise
    [arrayIDs] that [this.arrayIDs()] returns: resolved with the array of
    a resource made from an array or a [Set], and whatever the provider
    call returns otherwise, which may reject. When it rejects so does
    [getResource], and the loader is not called. When it resolves the
    loader is called on every id, and once all its promises have resolved
    the loop sets [ids[i]] to [responses[i]] for every index of [ids]
    ([Promise.all] gives as many responses as there are ids). *)
Definition getResource {E V : Type} (arrayIDs : result E (list Id))
    (loader : Id → result E V) : result E (gmap Z V) :=
  match arrayIDs with
  | Ok ids =>
      Batch.then_ (Batch.promise_all (map loader ids))
        (λ responses,
           foldl (λ map i, match ids !! i, responses !! i with
                           | Some k, Some v => <[k := v]> map
                           | _, _ => map
                           end) ∅ (seq 0 (length ids)))
  | Err e => Err e
  end.

End ResourceApi.

(** ** JavaScript [Map] with its iteration order *)

(** Where the order of the entries of a [Map] is used, the map is the
    list of its entries in insertion order: setting a key that is present
    replaces the value in place, setting a new key appends an entry. *)
Module JSMap.

Section Entries.
Context {V : Type}.

Fixpoint get (m : list (Id * V)) (k : Id) : option V :=
  match m with
  | [] => None
  | (k', v) :: m' => if bool_decide (k' = k) then Some v else get m' k
  end.

Fixpoint set (k : Id) (v : V) (m : list (Id * V)) : list (Id * V) :=
  match m with
  | [] => [(k, v)]
  | (k', v') :: m' =>
      if bool_decide (k' = k) then (k, v) :: m' else (k', v') :: set k v m'
  end.

Definition keys (m : list (Id * V)) : list Id := map fst m.

End Entries.

End JSMap.

(** ** factions.js *)

Module Factions.

(** An element of the response of [get_fw_wars]. *)
Record War : Type := { faction_id : Id; against_id : Id }.

(** An element of the response of [get_fw_systems], with the fields the
    code reads. *)
Record System : Type :=
  { solar_system_id : Id; owner_faction_id : Id; occupier_faction_id : Id }.

Definition getWarsForFaction (wars : list War) (faction : Id) : JSSet.t :=
  foldl (λ forFaction w,
           if bool_decide (faction_id w = faction)
           then JSSet.add (against_id w) forFaction
           else if bool_decide (against_id w = faction)
           then JSSet.add (faction_id w) forFaction
           else forFaction)
    JSSet.empty wars.

Definition getOwnedSystems (systems : list System) (faction : Id) : list System :=
  filter (λ s, owner_faction_id s = faction) systems.

Definition getOccupiedSystems (systems : list System) (faction : Id) : list System :=
  filter (λ s, occupier_faction_id s = faction) systems.

(** The loop of [IteratedFactions.owned] and [IteratedFactions.occupied]
    over the systems of the response, for the faction id [key] reads off a
    system: a system starts the array of a new faction or is pushed on the
    array the map holds for its faction. *)
Definition groupSystems (key : System → Id) (systems : list System)
    : list (Id * list System) :=
  foldl (λ groups s,
           match JSMap.get groups (key s) with
           | None => JSMap.set (key s) [s] groups
           | Some owned => JSMap.set (key s) (owned ++ [s]) groups
           end)
    [] systems.

(** What [IteratedFactions.owned] yields for the response [systems]. *)
Definition owned (systems : list System) : list (Id * list System) :=
  groupSystems owner_faction_id systems.

(** What [IteratedFactions.occupied] yields for the response [systems]. *)
Definition occupied (systems : list System) : list (Id * list System) :=
  groupSystems occupier_faction_id systems.

End Factions.

(** ** structures.js *)

Module Structures.

(** A market order, with the fields the code reads. *)
Record Order : Type := { order_id : Id; type_id : Id; is_buy_order : bool }.

(** The order types [getOrdersFor] is called with. *)
Inductive OrderType : Type := buy | sell | all.

(** [StructureMarket.getOrdersFor] over the orders the sequence
    delivers. *)
Definition getOrdersFor (orders : list Order) (typeID : Id)
    (orderType : OrderType) : list Order :=
  foldl (λ found o,
           if bool_decide (typeID = type_id o)
              && (match orderType with all => true | _ => false end
                  || (match orderType with buy => true | _ => false end
                      && is_buy_order o)
                  || (match orderType with sell => true | _ => false end
                      && negb (is_buy_order o)))
           then found ++ [o] else found)
    [] orders.

Definition buyOrdersFor (orders : list Order) (typeID : Id) : list Order :=
  getOrdersFor orders typeID buy.

Definition sellOrdersFor (orders : list Order) (typeID : Id) : list Order :=
  getOrdersFor orders typeID sell.

Definition ordersFor (orders : list Order) (typeID : Id) : list Order :=
  getOrdersFor orders typeID all.

(** [StructureMarket.types] over the orders the sequence still delivers,
    with the set of the type ids seen: the type ids it yields. *)
Fixpoint types_from (orders : list Order) (seen : JSSet.t) : list Id :=
  match orders with
  | o :: orders' =>
      let typeID := type_id o in
      if negb (JSSet.has typeID seen) then
        typeID :: types_from orders' (JSSet.add typeID seen)
      else types_from orders' seen
  | [] => []
  end.

Definition types (orders : list Order) : list Id := types_from orders JSSet.empty.

(** The fields [charID_] and [corpID_] of a [CharAndCorpAgent]:
    [undefined], a number, or a provider function. *)
Inductive IdSource (E : Type) : Type :=
  | Undefined
  | Number (n : Id)
  | Provider (provider : unit → result E Id).
Arguments Undefined {E}.
Arguments Number {E} n.
Arguments Provider {E} provider.

(** What a promise of [charID()] or [corpID()] rejects with: the
    [RangeError] of a call stack that is exhausted, or the error of a
    request or of a provider. *)
Inductive Rejection (E : Type) : Type :=
  | RangeError
  | RequestError (e : E).
Arguments RangeError {E}.
Arguments RequestError {E} e.

(** A promise of a request or of a provider, awaited or returned from an
    async method. *)
Definition awaited {E A : Type} (p : result E A) : result (Rejection E) A :=
  match p with
  | Ok a => Ok a
  | Err e => Err (RequestError e)
  end.

Section CharAndCorpAgent.
Context {E : Type}.
(** [get_corporations_corporation_id] read at [ceo_id], and
    [get_characters_character_id] read at [corporation_id]. *)
Variable ceo_id : Id → result E Id.
Variable corporation_id : Id → result E Id.
Variable charID_ corpID_ : IdSource E.

(** [charID()] and [corpID()] call each other, and the call is made
    before the [await] suspends the caller: the calls nest on the call
    stack, with room for [depth] of them. A call that does not fit throws
    a [RangeError], which rejects the promise of the async method it was
    made in, and the rejection is passed on by every [await] above it. *)
Fixpoint charID (depth : nat) : result (Rejection E) Id :=
  match depth with
  | O => Err RangeError
  | S depth' =>
      match charID_ with
      | Undefined =>
          match corpID depth' with
          | Ok corp => awaited (ceo_id corp)
          | Err e => Err e
          end
      | Number n => Ok n
      | Provider provider => awaited (provider ())
      end
  end
with corpID (depth : nat) : result (Rejection E) Id :=
  match depth with
  | O => Err RangeError
  | S depth' =>
      match corpID_ with
      | Undefined =>
          match charID depth' with
          | Ok char => awaited (corporation_id char)
          | Err e => Err e
          end
      | Number n => Ok n
      | Provider provider => awaited (provider ())
      end
  end.

End CharAndCorpAgent.

End Structures.

(** ** killmails.js *)

Module Killmails.

Section Hashes.
(** The hash of a killmail is never looked into. *)
Context {H : Type}.

Record KillmailLink : Type := { killmail_id : Id; killmail_hash : H }.

(** An element of the array [makeKillmails] takes: a link, or an
    [[id, hash]] tuple (which has no [killmail_id]). *)
Inductive LinkOrTuple : Type :=
  | OfLink (link : KillmailLink)
  | OfTuple (tuple : Id * H).

Record MappedKillmails : Type :=
  { base : ResourceApi.SimpleMappedResource; idHashes : list (Id * H) }.

(** [new MappedKillmails(agent, idHashes)] *)
Definition constructor (idHashes : list (Id * H)) : MappedKillmails :=
  {| base := ResourceApi.constructor (ResourceApi.OfArray (JSMap.keys idHashes));
     idHashes := idHashes |}.

(** [makeKillmails(agent)(ids)] for an array [ids]. *)
Definition makeKillmails (ids : list LinkOrTuple) : MappedKillmails :=
  constructor
    (foldl (λ map e,
              match e with
              | OfLink link => JSMap.set (killmail_id link) (killmail_hash link) map
              | OfTuple tuple => JSMap.set tuple.1 tuple.2 map
              end)
       [] ids).

(** [MappedKillmails.links()] *)
Definition links (this : MappedKillmails) : list (Id * KillmailLink) :=
  foldl (λ map pair,
           JSMap.set pair.1 {| killmail_id := pair.1; killmail_hash := pair.2 |} map)
    [] (idHashes this).

End Hashes.

End Killmails.

(** ** Vocabulary of the properties *)

(** An element with an [id] field, [{id: n}]. *)
Record Elem : Type := { id : Id }.

(** The requester that echoes its ids: one value an id, in order. *)
Definition echoing {E : Type} (ids : list Id) : result E (list Id) := Ok ids.

(** [value] is the first element of [resources] that resolves to [id]. *)
Definition FirstMatch {T : Type} (resolver : T → Id) (resources : list T)
    (id : Id) (value : T) : Prop :=
  ∃ i, resources !! i = Some value ∧ resolver value = id
     ∧ ∀ j v, j < i → resources !! j = Some v → resolver v ≠ id.

(** Some element of [resources] resolves to [id]. *)
Definition Matched {T : Type} (resolver : T → Id) (resources : list T)
    (id : Id) : Prop :=
  ∃ value, value ∈ resources ∧ resolver value = id.

(** The bindings of a map are first matches. *)
Definition FirstMatches {T : Type} (resolver : T → Id) (resources : list T)
    (map : gmap Z T) : Prop :=
  ∀ k v, map !! k = Some v → FirstMatch resolver resources k v.

(** Every id of [ids] has a matching element in [p]. *)
Definition Complete {T : Type} (resolver : T → Id) (p : list T)
    (ids : list Id) : Prop :=
  ∀ id, id ∈ ids → Matched resolver p id.

(** The map of [collect] after the elements [p], started from [map]. *)
Definition gather {T : Type} (resolver : T → Id) (ids : list Id) (p : list T)
    (map : gmap Z T) : gmap Z T :=
  foldl (λ m e, if bool_decide (0 ≤ ResourceApi.indexOf ids (resolver e))%Z
                then <[resolver e := e]> m else m) map p.

(** The hint in force after [tr], when [maxPages] held before it. *)
Definition hintFrom {E T : Type} (maxPages : option nat)
    (tr : list (event nat (result E (ResourceApi.PageResults T)) T)) : option nat :=
  match maxPages with
  | Some m => Some m
  | None => ResourceApi.maxPagesHint tr
  end.

(** The distinct elements of a list in the order of their first
    occurrence: the head, then the first occurrences of the rest that
    differ from it. *)
Fixpoint firstOccurrences (a : list Id) : list Id :=
  match a with
  | [] => []
  | x :: a' => x :: filter (λ y, y ≠ x) (firstOccurrences a')
  end.

(** A page loader that answers every call with the same full page of two
    elements and the hint that there are two pages. *)
Definition twoPages (st : unit) (page : nat)
    : result unit (ResourceApi.PageResults Id) * unit :=
  (Ok (ResourceApi.WithMaxPages [10; 20]%Z (Some 2)), st).

(** The same with the hint that there are three pages. *)
Definition threePages (st : unit) (page : nat)
    : result unit (ResourceApi.PageResults Id) * unit :=
  (Ok (ResourceApi.WithMaxPages [10; 20]%Z (Some 3)), st).

(** A page loader that answers its calls with the pages of a script, one
    after the other, whatever the cursor, and with an empty page once the
    script is over. *)
Definition scripted {E T : Type} (st : list (list T)) (maxID : option Id)
    : result E (list T) * list (list T) :=
  match st with
  | page :: rest => (Ok page, rest)
  | [] => (Ok [], [])
  end.

(** The requester that answers every id with its value [f id], one
    value an id, in order. *)
Definition answering {E T : Type} (f : Id → T) (ids : list Id)
    : result E (list T) :=
  Ok (map f ids).

(** The pages a trace fetched, in order. *)
Definition fetched {A E P Y : Type} (tr : list (event A (result E P) Y))
    : list P :=
  omap (λ ev, match ev with
              | Request _ (Ok page) => Some page
              | _ => None
              end) tr.

(** The last hash an array of links and tuples gives for [id]. *)
Definition lastHash {H : Type} (ids : list (Killmails.LinkOrTuple (H:=H)))
    (id : Id) : option H :=
  last (omap (λ e, match e with
                   | Killmails.OfLink link =>
                       if bool_decide (Killmails.killmail_id link = id)
                       then Some (Killmails.killmail_hash link) else None
                   | Killmails.OfTuple tuple =>
                       if bool_decide (tuple.1 = id) then Some tuple.2 else None
                   end) ids).

(** The id an element of the array of [makeKillmails] is filed under. *)
Definition idOf {H : Type} (e : Killmails.LinkOrTuple (H:=H)) : Id :=
  match e with
  | Killmails.OfLink link => Killmails.killmail_id link
  | Killmails.OfTuple tuple => tuple.1
  end.

(** A server of the page-number style over the collection [all], with
    [size] elements a page: page [n] is the [n]-th run of [size] elements
    of [all], past the end an empty page, wrapped as the callers wrap it,
    [{ result, maxPages: undefined }]. *)
Definition pageOf {E T : Type} (all : list T) (size : nat) (st : unit)
    (page : nat) : result E (ResourceApi.PageResults T) * unit :=
  (Ok (ResourceApi.WithMaxPages
         (Batch.slice all ((page - 1) * size) ((page - 1) * size + size)) None),
   st).

(** The elements of [feed] that a cursor lets through: all of them
    without a cursor, those with an id below the cursor otherwise. *)
Definition olderThan {T : Type} (idResolver : T → Id) (maxID : option Id)
    (feed : list T) : list T :=
  match maxID with
  | None => feed
  | Some m => filter (λ e, (idResolver e < m)%Z) feed
  end.

(** A server of the max-id style over [feed], with at most [size]
    elements a page: the first [size] elements that the cursor lets
    through. *)
Definition before {E T : Type} (idResolver : T → Id) (feed : list T)
    (size : nat) (st : unit) (maxID : option Id) : result E (list T) * unit :=
  (Ok (take size (olderThan idResolver maxID feed)), st).

(** The ids of [feed] go down from element to element. *)
Definition Descending {T : Type} (idResolver : T → Id) (feed : list T) : Prop :=
  ∀ i j a b, i < j → feed !! i = Some a → feed !! j = Some b →
    (idResolver b < idResolver a)%Z.

(** A page loader that never runs out: page [n] holds the one element
    [n]. *)
Definition endless (st : unit) (page : nat)
    : result unit (ResourceApi.PageResults nat) * unit :=
  (Ok (ResourceApi.Elements [page]), st).

(** * Properties *)

(** ** Splitting an id list *)


Section SplitIds.
Import Batch.
Context {A : Type}.
Implicit Types (ids : list A) (groups gs : list (list A)).

Lemma slice_length ids i e :
  length (slice ids i e) = (e `min` length ids) - i.
Proof. unfold slice. rewrite length_drop, length_take. done. Qed.

Lemma slice_clamp ids i e :
  slice ids i (if length ids <? e then length ids else e) = slice ids i e.
Proof.
  unfold slice. destruct (Nat.ltb_spec (length ids) e) as [H|H]; [|done].
  rewrite !take_ge by lia. done.
Qed.

Lemma slice_step ids i b :
  slice ids i (i + b) ++ drop (i + b) ids = drop i ids.
Proof.
  unfold slice. destruct (decide (i ≤ length ids)) as [Hi|Hi].
  - rewrite <- (take_drop (i + b) ids) at 3.
    rewrite drop_app_le; [done|]. rewrite length_take. lia.
  - rewrite !drop_ge; [done|lia|lia|]. rewrite length_take. lia.
Qed.

(** What the loop computes from index [i] on, when the bound suffices. *)
Lemma splitIds_loop_spec ids b (Hb : 0 < b) fuel :
  ∀ i groups, length ids - i + b ≤ fuel * b →
    ∃ gs, splitIds_loop fuel ids b i groups = Some (groups ++ gs)
        ∧ concat gs = drop i ids
        ∧ length gs = (length ids - i + b - 1) / b
        ∧ ∀ k, k < length gs → gs !! k = Some (slice ids (i + k * b) (i + k * b + b)).
Proof.
  induction fuel as [|fuel IH]; intros i groups Hfuel; [simpl in Hfuel; lia|].
  simpl. destruct (Nat.ltb_spec i (length ids)) as [Hi|Hi].
  - destruct (IH (i + b) (groups ++ [slice ids i
      (if length ids <? i + b then length ids else i + b)])) as (gs & -> & Hc & Hl & Hn);
      [destruct fuel; simpl in *; lia|].
    exists (slice ids i (i + b) :: gs). rewrite slice_clamp, <- app_assoc.
    split; [done|]. split; [|split].
    + simpl. rewrite Hc. apply slice_step.
    + simpl. rewrite Hl. destruct (decide (i + b ≤ length ids)) as [Hle|Hgt].
      * replace (length ids - i + b - 1)
          with (length ids - (i + b) + b - 1 + 1 * b) by lia.
        rewrite Nat.div_add by lia. lia.
      * replace (length ids - (i + b) + b - 1) with (b - 1) by lia.
        rewrite (Nat.div_small (b - 1) b) by lia.
        apply (Nat.div_unique _ _ 1 (length ids - i - 1)); lia.
    + intros [|k] Hk; simpl.
      * do 2 f_equal; lia.
      * simpl in Hk. rewrite Hn by lia. do 2 f_equal; lia.
  - exists []. rewrite app_nil_r. split; [done|]. split; [|split].
    + rewrite drop_ge by lia. done.
    + simpl. symmetry. apply Nat.div_small. lia.
    + simpl. lia.
Qed.

(** The number of groups, [(L + b - 1) / b], is the ceiling of [L / b]. *)
Lemma ceil_div_cases L b (Hb : 0 < b) :
  (L `mod` b = 0 ∧ (L + b - 1) / b = L / b)
  ∨ (0 < L `mod` b ∧ (L + b - 1) / b = S (L / b)).
Proof.
  pose proof (Nat.div_mod_eq L b) as Hdm.
  pose proof (Nat.mod_upper_bound L b ltac:(lia)) as Hr.
  destruct (decide (L `mod` b = 0)) as [H0|H0]; [left|right]; split; try lia.
  - symmetry. apply (Nat.div_unique _ _ _ (b - 1)); lia.
  - symmetry. apply (Nat.div_unique _ _ _ (L `mod` b - 1)); lia.
Qed.

(** With a batch size above [0] the loop ends, and the groups are the
    consecutive slices of [ids]. *)
Lemma splitIds_slices ids b fuel :
  0 < b → length ids < fuel →
  ∃ groups,
    splitIds fuel ids b = Some groups
    ∧ concat groups = ids
    ∧ length groups = (length ids + b - 1) / b
    ∧ ∀ k, k < length groups → groups !! k = Some (slice ids (k * b) (k * b + b)).
Proof.
  intros Hb Hfuel.
  destruct (splitIds_loop_spec ids b Hb fuel 0 []) as (gs & Hrun & Hc & Hl & Hn);
    [nia|].
  rewrite Nat.sub_0_r in Hl. simpl in Hrun, Hc, Hn. by exists gs.
Qed.

(** C1. For a batch size [b > 0] the loop of [splitIds] ends (a bound
    above the length of [ids] is enough) and returns [n] groups, [n] the
    ceiling of [L / b] and [L] the length of [ids]: [n = (L + b - 1) / b],
    that is [L <= n * b < L + b]; the group of index [k] is the run of
    [ids] from index [k * b] up to [k * b + b] (or the end of [ids]);
    every group but the last has [b] elements, the last has [L mod b], or
    [b] when [L mod b = 0]; and the groups concatenated in order are
    [ids]. *)
Theorem splitIds_partition ids b fuel :
  0 < b → length ids < fuel →
  ∃ groups,
    splitIds fuel ids b = Some groups
    ∧ length groups = (length ids + b - 1) / b
    ∧ length ids ≤ length groups * b < length ids + b
    ∧ (∀ k, k < length groups →
         groups !! k = Some (slice ids (k * b) (k * b + b)))
    ∧ (∀ k g, groups !! k = Some g → S k < length groups → length g = b)
    ∧ (∀ g, last groups = Some g →
         length g = if length ids `mod` b =? 0 then b else length ids `mod` b)
    ∧ concat groups = ids.
Proof.
  intros Hb Hfuel.
  destruct (splitIds_slices ids b fuel Hb Hfuel) as (gs & Hrun & Hc & Hl & Hn).
  exists gs. split; [done|]. split; [done|].
  pose proof (Nat.div_mod_eq (length ids) b) as Hdm.
  pose proof (Nat.mod_upper_bound (length ids) b ltac:(lia)) as Hr.
  assert (Hsize : ∀ k g, gs !! k = Some g →
            length g = ((k * b + b) `min` length ids) - k * b).
  { intros k g Hk. pose proof (lookup_lt_Some _ _ _ Hk) as Hlt.
    rewrite (Hn k Hlt) in Hk. injection Hk as <-. apply slice_length. }
  split; [|split; [done|]; split; [|split; [|done]]].
  - destruct (ceil_div_cases (length ids) b Hb) as [[H0 Hq]|[H0 Hq]]; nia.
  - intros k g Hk Hlast. rewrite (Hsize k g Hk).
    destruct (ceil_div_cases (length ids) b Hb) as [[H0 Hq]|[H0 Hq]]; nia.
  - intros g Hg. rewrite last_lookup in Hg. rewrite (Hsize _ g Hg).
    assert (0 < length gs) by (destruct gs; [done|simpl; lia]).
    destruct (ceil_div_cases (length ids) b Hb) as [[H0 Hq]|[H0 Hq]].
    + rewrite H0. simpl. nia.
    + destruct (Nat.eqb_spec (length ids `mod` b) 0); [lia|]. nia.
Qed.

End SplitIds.

(** C1, at an instance: seven ids in groups of three. *)
Lemma splitIds_partition_witness :
  0 < 3 ∧ length [1; 2; 3; 4; 5; 6; 7]%Z < 8 ∧
  ∃ groups : list (list Id),
    Batch.splitIds 8 [1; 2; 3; 4; 5; 6; 7]%Z 3 = Some groups
    ∧ length groups = (7 + 3 - 1) / 3
    ∧ 7 ≤ length groups * 3 < 7 + 3
    ∧ (∀ k, k < length groups →
         groups !! k = Some (Batch.slice [1; 2; 3; 4; 5; 6; 7]%Z (k * 3) (k * 3 + 3)))
    ∧ (∀ k g, groups !! k = Some g → S k < length groups → length g = 3)
    ∧ (∀ g, last groups = Some g → length g = if 7 `mod` 3 =? 0 then 3 else 7 `mod` 3)
    ∧ concat groups = [1; 2; 3; 4; 5; 6; 7]%Z.
Proof.
  split; [lia|]. split; [simpl; lia|].
  apply (splitIds_partition [1; 2; 3; 4; 5; 6; 7]%Z 3 8); simpl; lia.
Defined.

Example splitIds_seven_by_three :
  Batch.splitIds 8 [1; 2; 3; 4; 5; 6; 7]%Z 3 = Some [[1; 2; 3]; [4; 5; 6]; [7]]%Z.
Proof. reflexivity. Qed.

(** With a batch size of [0] the loop never moves on. *)
Example splitIds_zero_batch fuel :
  Batch.splitIds fuel [1]%Z 0 = None.
Proof.
  unfold Batch.splitIds. generalize (@nil (list Z)).
  induction fuel as [|fuel IH]; intros groups; [done|]. simpl. apply IH.
Qed.

(** ** Traces *)

Section Traces.
Context {A R Y : Type}.
Implicit Types tr : list (event A R Y).

Lemma requests_app tr1 tr2 : requests (tr1 ++ tr2) = requests tr1 ++ requests tr2.
Proof. apply omap_app. Qed.

Lemma requests_yields (l : list Y) : requests (A:=A) (R:=R) (map Yield l) = [].
Proof. induction l; [done|]. simpl. done. Qed.

Lemma yields_app tr1 tr2 : yields (tr1 ++ tr2) = yields tr1 ++ yields tr2.
Proof. apply omap_app. Qed.

Lemma yields_yields (l : list Y) : yields (A:=A) (R:=R) (map Yield l) = l.
Proof. induction l as [|y l IH]; [done|]. simpl. by f_equal. Qed.

End Traces.

(** ** The streaming batch resolver *)

Section Streaming.
Import Batch.
Context {E T P : Type}.
Variable requester : list Id → result E (list T).
Variable resolver : T → option Id → P.

Lemma JSSet_size_add x s : JSSet.size (JSSet.add x s) ≤ S (JSSet.size s).
Proof.
  unfold JSSet.add, JSSet.size. destruct (JSSet.has x s); simpl; [lia|].
  rewrite length_app. simpl. lia.
Qed.

(** A flush requests the ids of the batch, and nothing else before the
    rest of the run. *)
Lemma requests_flush idBatch k :
  ∃ r rest, requests (flush requester resolver idBatch k).1
            = (JSSet.to_array idBatch, r) :: rest
          ∧ (rest = [] ∨ rest = requests k.1).
Proof.
  unfold flush. destruct (requester (JSSet.to_array idBatch)) as [array|e]; simpl.
  - eexists _, _. split; [reflexivity|]. right.
    rewrite requests_app, requests_yields. done.
  - eexists _, _. split; [reflexivity|]. by left.
Qed.

Lemma getIteratedValues_from_bounded batchSize (Hb : 1 ≤ batchSize) ids :
  ∀ idBatch, JSSet.size idBatch < batchSize →
    Forall (λ call, length call.1 ≤ batchSize)
      (requests (getIteratedValues_from requester ids resolver batchSize idBatch).1).
Proof.
  induction ids as [|id ids IH]; intros idBatch Hsize; simpl.
  - destruct (Nat.ltb_spec 0 (JSSet.size idBatch)); [|by constructor].
    destruct (requests_flush idBatch ([], Finished)) as (r & rest & -> & [->| ->]);
      repeat constructor; unfold JSSet.size, JSSet.to_array in *; simpl; lia.
  - pose proof (JSSet_size_add id idBatch) as Hadd.
    destruct (Nat.leb_spec batchSize (JSSet.size (JSSet.add id idBatch))) as [Hfull|Hroom].
    + destruct (requests_flush (JSSet.add id idBatch)
        (getIteratedValues_from requester ids resolver batchSize JSSet.empty))
        as (r & rest & -> & Hrest).
      constructor; [unfold JSSet.size, JSSet.to_array in *; simpl; lia|].
      destruct Hrest as [->| ->]; [constructor|].
      apply IH. unfold JSSet.size. simpl. lia.
    + by apply IH.
Qed.

End Streaming.

(** ** The size of a request *)

Section RequestSize.
Import Batch.
Context {E T P V : Type}.
Variable requester : list Id → result E (list T).

Lemma splitIds_bounded (ids : list Id) batchSize fuel :
  1 ≤ batchSize → length ids < fuel →
  ∃ groups, splitIds fuel ids batchSize = Some groups
          ∧ Forall (λ idSet, length idSet ≤ batchSize) groups.
Proof.
  intros Hb Hfuel.
  destruct (splitIds_slices ids batchSize fuel) as (groups & Hrun & _ & _ & Hn);
    [lia|done|].
  exists groups. split; [done|]. apply Forall_lookup. intros k g Hk.
  pose proof (lookup_lt_Some _ _ _ Hk) as Hlt. rewrite (Hn k Hlt) in Hk.
  injection Hk as <-. rewrite slice_length. lia.
Qed.

(** C5. With a batch size of at least [1], every id list a requester is
    called with has at most [batchSize] ids: on the splitting path
    ([getIDMatchedValues], and so [getRawValues] and [getBatchedValues],
    which return once the loop of [splitIds] has ended) and on the
    streaming path ([getIteratedValues]). *)
Theorem request_size_bounded (ids : list Id) (batchSize fuel : nat)
    (pairing : T → option Id → Id * V) (resolver : T → option Id → P) :
  1 ≤ batchSize → length ids < fuel →
  (∃ calls r, getIDMatchedValues requester fuel ids batchSize = Some (calls, r)
            ∧ Forall (λ idSet, length idSet ≤ batchSize) calls)
  ∧ (∃ calls r, getRawValues requester fuel ids batchSize = Some (calls, r)
            ∧ Forall (λ idSet, length idSet ≤ batchSize) calls)
  ∧ (∃ calls r, getBatchedValues requester fuel ids pairing batchSize = Some (calls, r)
            ∧ Forall (λ idSet, length idSet ≤ batchSize) calls)
  ∧ Forall (λ call, length call.1 ≤ batchSize)
      (requests (getIteratedValues requester ids resolver batchSize).1).
Proof.
  intros Hb Hfuel.
  destruct (splitIds_bounded ids batchSize fuel Hb Hfuel) as (groups & Hrun & Hall).
  unfold getRawValues, getBatchedValues, getIDMatchedValues. rewrite Hrun. simpl.
  repeat split; try (eexists _, _; split; [reflexivity|done]).
  apply getIteratedValues_from_bounded; [done|]. unfold JSSet.size. simpl. lia.
Qed.

End RequestSize.

(** C5, at an instance: five ids, two of them equal, in batches of two. *)
Lemma request_size_bounded_witness :
  1 ≤ 2 ∧ length [1; 2; 1; 3; 4]%Z < 6 ∧
  (∃ calls r, Batch.getIDMatchedValues (echoing (E:=unit)) 6 [1; 2; 1; 3; 4]%Z 2 = Some (calls, r)
            ∧ Forall (λ idSet, length idSet ≤ 2) calls)
  ∧ (∃ calls r, Batch.getRawValues (echoing (E:=unit)) 6 [1; 2; 1; 3; 4]%Z 2 = Some (calls, r)
            ∧ Forall (λ idSet, length idSet ≤ 2) calls)
  ∧ (∃ calls r, Batch.getBatchedValues (echoing (E:=unit)) 6 [1; 2; 1; 3; 4]%Z
                  (λ e _, (e, e)) 2 = Some (calls, r)
            ∧ Forall (λ idSet, length idSet ≤ 2) calls)
  ∧ Forall (λ call, length call.1 ≤ 2)
      (requests (Batch.getIteratedValues (echoing (E:=unit)) [1; 2; 1; 3; 4]%Z (λ e _, e) 2).1).
Proof.
  split; [lia|]. split; [simpl; lia|].
  apply (request_size_bounded (echoing (E:=unit)) [1; 2; 1; 3; 4]%Z 2 6); simpl; lia.
Defined.

(** ** The deduplication window of the streaming resolver *)

(** C4. On the ids [1, 2, 1, 3] with a batch size of [2], and a requester
    whose promises resolve, [getIteratedValues] calls the requester twice,
    with [[1, 2]] and then with [[1, 3]], and returns: the second [1]
    comes after the first batch was flushed and is requested again. *)
Theorem getIteratedValues_dedup_window {E T P : Type}
    (respond : list Id → list T) (resolver : T → option Id → P) :
  let run := Batch.getIteratedValues (E:=E) (λ ids, Ok (respond ids))
               [1; 2; 1; 3]%Z resolver 2 in
  map fst (requests run.1) = [[1; 2]; [1; 3]]%Z ∧ run.2 = Finished.
Proof.
  cbv [Batch.getIteratedValues Batch.getIteratedValues_from Batch.flush after
       JSSet.add JSSet.has JSSet.size JSSet.to_array JSSet.empty JSSet.entries].
  repeat (progress (simpl; rewrite ?requests_app, ?requests_yields)). done.
Qed.

(** Within the window a repeated id is requested once. *)
Example getIteratedValues_dedup_inside :
  map fst (requests (Batch.getIteratedValues (echoing (E:=unit)) [1; 1; 2; 3]%Z (λ e _, e) 2).1)
  = [[1; 2]; [3]]%Z.
Proof. reflexivity. Qed.

Example getIteratedValues_trace :
  Batch.getIteratedValues (echoing (E:=unit)) [1; 2; 1; 3]%Z (λ e i, (i, e)) 2
  = ([Request [1; 2]%Z (Ok [1; 2]%Z); Yield (Some 1, 1)%Z; Yield (Some 2, 2)%Z;
      Request [1; 3]%Z (Ok [1; 3]%Z); Yield (Some 1, 1)%Z; Yield (Some 3, 3)%Z],
     Finished).
Proof. reflexivity. Qed.

(** ** Round trip of the id/value pairing *)

Section RoundTrip.
Import Batch.
Context {E : Type}.

Lemma map_fmap {A B : Type} (f : A → B) (l : list A) : map f l = f <$> l.
Proof. reflexivity. Qed.

(** Against an aligned response every element gets the id of its
    position. *)
Lemma imap_aligned {B : Type} (g : Id → option Id → B) (idSet : list Id) :
  imap (λ i e, g e (idSet !! i)) idSet = map (λ e, g e (Some e)) idSet.
Proof.
  apply list_eq. intros i. rewrite list_lookup_imap, map_fmap, list_lookup_fmap.
  destruct (idSet !! i) as [e|] eqn:Hi; simpl; [|done]. done.
Qed.

Lemma promise_all_resolved {A : Type} (l : list A) :
  promise_all (E:=E) (map Ok l) = Ok l.
Proof. induction l as [|a l IH]; [done|]. simpl. by rewrite IH. Qed.

Lemma foldl_insert_self_lookup (ids : list Id) :
  ∀ (m : gmap Z Z) k,
    foldl (λ m e, <[e := e]> m) m ids !! k
    = if decide (k ∈ ids) then Some k else m !! k.
Proof.
  induction ids as [|a ids IH]; intros m k; simpl.
  - destruct (decide (k ∈ [])) as [H|H]; [by apply elem_of_nil in H|done].
  - rewrite IH. destruct (decide (k ∈ ids)) as [Hin|Hout].
    + rewrite decide_True by (by right). done.
    + destruct (decide (a = k)) as [->|Hne].
      * rewrite lookup_insert_eq, decide_True by (by left). done.
      * rewrite lookup_insert_ne by done.
        rewrite decide_False; [done|]. intros [?|?]%elem_of_cons; congruence.
Qed.

(** C8. With a batch size of at least [1], a requester that echoes its
    ids as values and a resolver that pairs an element with its matched
    id, [getBatchedValues] returns (once the loop of [splitIds] has
    ended) a promise that resolves to a map in which every input id is
    bound to itself and whose keys are exactly the input ids, each
    once. *)
Theorem getBatchedValues_echo (ids : list Id) (batchSize fuel : nat)
    (resolver : Id → option Id → Id * Id) :
  1 ≤ batchSize → length ids < fuel →
  (∀ e id, resolver e (Some id) = (id, e)) →
  ∃ calls map,
    getBatchedValues (echoing (E:=E)) fuel ids resolver batchSize = Some (calls, Ok map)
    ∧ (∀ id, id ∈ ids → map !! id = Some id)
    ∧ dom map = list_to_set ids.
Proof.
  intros Hb Hfuel Hres.
  destruct (splitIds_slices ids batchSize fuel) as (groups & Hrun & Hcat & _);
    [lia|done|].
  unfold getBatchedValues, getIDMatchedValues. rewrite Hrun. simpl.
  eexists _, _. split.
  { unfold echoing, then_ at 2. 
    rewrite (map_ext _ (λ idSet, Ok (map (λ e, {| element := e; id := Some e |}) idSet)))
      by (intros idSet; by rewrite imap_aligned).
    rewrite <- (map_map (map (λ e, {| element := e; id := Some e |})) Ok).
    rewrite promise_all_resolved. simpl. rewrite <- concat_map, Hcat.
    reflexivity. }
  assert (Hfold : ∀ m : gmap Z Z,
    foldl (λ map n, let tuple := resolver (element n) (id n) in
                    <[tuple.1 := tuple.2]> map) m
      (map (λ e, {| element := e; id := Some e |}) ids)
    = foldl (λ m e, <[e := e]> m) m ids).
  { clear -Hres. induction ids as [|a ids IH]; intros m; [done|].
    simpl. rewrite Hres. simpl. apply IH. }
  rewrite Hfold. split.
  - intros k Hk. rewrite foldl_insert_self_lookup, decide_True by done. done.
  - apply set_eq. intros k. rewrite elem_of_dom, elem_of_list_to_set.
    rewrite foldl_insert_self_lookup. destruct (decide (k ∈ ids)) as [Hin|Hout].
    + split; [done|]. by eexists.
    + rewrite lookup_empty. split; [by intros [? ?]|done].
Qed.

End RoundTrip.

(** C8, at an instance: an id list with a repeated id, in batches of two. *)
Lemma getBatchedValues_echo_witness :
  1 ≤ 2 ∧ length [5; 7; 5; 9; 11]%Z < 6 ∧
  (∀ e id : Id, (λ e i, (default 0%Z i, e)) e (Some id) = (id, e)) ∧
  ∃ calls map,
    Batch.getBatchedValues (echoing (E:=unit)) 6 [5; 7; 5; 9; 11]%Z
      (λ e i, (default 0%Z i, e)) 2 = Some (calls, Ok map)
    ∧ (∀ id, id ∈ [5; 7; 5; 9; 11]%Z → map !! id = Some id)
    ∧ dom map = list_to_set [5; 7; 5; 9; 11]%Z.
Proof.
  split; [lia|]. split; [simpl; lia|]. split; [reflexivity|].
  apply (getBatchedValues_echo [5; 7; 5; 9; 11]%Z 2 6); [lia|simpl; lia|reflexivity].
Defined.

Example getBatchedValues_echo_run :
  Batch.getBatchedValues (echoing (E:=unit)) 6 [5; 7; 5; 9; 11]%Z
    (λ e i, (default 0%Z i, e)) 2
  = Some ([[5; 7]; [5; 9]; [11]]%Z,
          Ok (<[11 := 11]> (<[9 := 9]> (<[7 := 7]> (<[5 := 5]> ∅))))%Z).
Proof. vm_compute. reflexivity. Qed.

(** ** Resolution of an id list against an array *)

Section FilterArrayToMap.
Import ResourceApi.
Context {T : Type}.
Variable resolver : T → Id.
Implicit Types (resources : list T) (ids : list Id) (map : gmap Z T).

Lemma has_true map id : has map id = true ↔ is_Some (map !! id).
Proof. unfold has. apply bool_decide_eq_true. Qed.

Lemma FirstMatch_Matched resources id value :
  FirstMatch resolver resources id value → Matched resolver resources id.
Proof.
  intros (i & Hi & Hr & _). exists value. split; [|done].
  by apply list_elem_of_lookup_2 in Hi.
Qed.

Lemma bindFirst_spec resources id map :
  (∃ value, FirstMatch resolver resources id value
          ∧ bindFirst resolver resources id map = <[id := value]> map)
  ∨ (¬ Matched resolver resources id ∧ bindFirst resolver resources id map = map).
Proof.
  induction resources as [|v resources IH]; simpl.
  - right. split; [|done]. intros (value & Hin & _). by apply elem_of_nil in Hin.
  - destruct (bool_decide_reflect (resolver v = id)) as [Hv|Hv].
    + left. exists v. split; [|done]. exists 0. repeat split; [done|]. lia.
    + destruct IH as [(value & (i & Hi & Hr & Hmin) & Hb)|[Hno Hb]].
      * left. exists value. split; [|done]. exists (S i). repeat split; [done..|].
        intros [|j] w Hj Hw; simpl in Hw; [congruence|]. apply (Hmin j); [lia|done].
      * right. split; [|done]. intros (value & Hin & Hr).
        apply elem_of_cons in Hin as [->|Hin]; [done|]. apply Hno. by exists value.
Qed.

Lemma filterArrayToMap_from_ok resources ids :
  ∀ map, FirstMatches resolver resources map →
    (∀ id, id ∈ ids → Matched resolver resources id) →
    ∃ map', filterArrayToMap_from resolver resources ids map = Ok map'
          ∧ FirstMatches resolver resources map'
          ∧ dom map' = dom map ∪ list_to_set ids.
Proof.
  induction ids as [|id ids IH]; intros map Hinv Hall; simpl.
  - exists map. split; [done|]. split; [done|]. set_solver.
  - destruct (bindFirst_spec resources id map) as [(value & Hfirst & ->)|[Hno _]].
    + assert (has (<[id := value]> map) id = true) as ->
        by (apply has_true; rewrite lookup_insert_eq; by eexists).
      simpl. destruct (IH (<[id := value]> map)) as (map' & -> & Hinv' & Hdom).
      * intros k v. rewrite lookup_insert. case_decide; [|by apply Hinv].
        intros [= <-]. by subst.
      * intros k Hk. apply Hall. by right.
      * exists map'. split; [done|]. split; [done|].
        rewrite Hdom, dom_insert_L. set_solver.
    + destruct Hno. apply Hall. by left.
Qed.

Lemma filterArrayToMap_from_missing resources pre id post :
  ∀ map, FirstMatches resolver resources map →
    (∀ x, x ∈ pre → Matched resolver resources x) →
    ¬ Matched resolver resources id →
    filterArrayToMap_from resolver resources (pre ++ id :: post) map
    = Err (NotFound id).
Proof.
  induction pre as [|x pre IH]; intros map Hinv Hpre Hno; simpl.
  - destruct (bindFirst_spec resources id map) as [(value & Hfirst & _)|[_ ->]].
    + destruct Hno. by eapply FirstMatch_Matched.
    + destruct (has map id) eqn:Hhas; [|done].
      apply has_true in Hhas as [v Hv]. destruct Hno.
      eapply FirstMatch_Matched. by apply Hinv.
  - destruct (bindFirst_spec resources x map) as [(value & Hfirst & ->)|[Hnox _]].
    + assert (has (<[x := value]> map) x = true) as ->
        by (apply has_true; rewrite lookup_insert_eq; by eexists).
      simpl. apply IH; [|intros y Hy; apply Hpre; by right|done].
      intros k v. rewrite lookup_insert. case_decide; [|by apply Hinv].
      intros [= <-]. by subst.
    + destruct Hnox. apply Hpre. by left.
Qed.

Lemma filterArrayToMap_resolved resources ids :
  (∀ id, id ∈ ids → Matched resolver resources id) →
  ∃ map, filterArrayToMap resolver resources ids = Ok map
       ∧ dom map = list_to_set ids
       ∧ ∀ id, id ∈ ids → ∃ value, map !! id = Some value
                                  ∧ FirstMatch resolver resources id value.
Proof.
  intros Hall.
  destruct (filterArrayToMap_from_ok resources ids ∅) as (map & Hrun & Hinv & Hdom);
    [intros k v; by rewrite lookup_empty|done|].
  exists map. split; [done|]. split; [rewrite Hdom; set_solver|].
  intros id Hid. assert (id ∈ dom map) as [value Hv]%elem_of_dom
    by (rewrite Hdom; set_solver).
  exists value. split; [done|]. by apply Hinv.
Qed.

Lemma filterArrayToMap_rejected resources pre id post :
  (∀ x, x ∈ pre → Matched resolver resources x) → ¬ Matched resolver resources id →
  filterArrayToMap resolver resources (pre ++ id :: post) = Err (NotFound id).
Proof.
  intros Hpre Hno. apply filterArrayToMap_from_missing; [|done..].
  intros k v. by rewrite lookup_empty.
Qed.

End FilterArrayToMap.

(** C6. [filterArrayToMap]: when every requested id has a matching
    element, the result is a map whose keys are exactly the requested ids,
    each bound to the first element of the array that resolves to it; when
    an id without a matching element comes after ids that all have one,
    the result is the NotFound error of that id, whatever ids follow it.
    So [[{id:1},{id:2},{id:3}]] filtered by [[1,3]] is the map
    [{1: {id:1}, 3: {id:3}}], and filtered by [[1,4]] it is NotFound(4). *)
Theorem filterArrayToMap_spec :
  (∀ (T : Type) (resolver : T → Id) (resources : list T) (ids : list Id),
     ((∀ id, id ∈ ids → Matched resolver resources id) →
        ∃ map, ResourceApi.filterArrayToMap resolver resources ids = Ok map
             ∧ dom map = list_to_set ids
             ∧ ∀ id, id ∈ ids → ∃ value, map !! id = Some value
                                        ∧ FirstMatch resolver resources id value)
     ∧ (∀ pre id post, ids = pre ++ id :: post →
          (∀ x, x ∈ pre → Matched resolver resources x) →
          ¬ Matched resolver resources id →
          ResourceApi.filterArrayToMap resolver resources ids = Err (NotFound id)
          ∧ ∀ post', ResourceApi.filterArrayToMap resolver resources (pre ++ id :: post')
                     = Err (NotFound id)))
  ∧ ResourceApi.filterArrayToMap (λ e, id e)
      [{| id := 1 |}; {| id := 2 |}; {| id := 3 |}]%Z [1; 3]%Z
    = Ok (<[3 := {| id := 3 |}]> (<[1 := {| id := 1 |}]> ∅))%Z
  ∧ ResourceApi.filterArrayToMap (λ e, id e)
      [{| id := 1 |}; {| id := 2 |}; {| id := 3 |}]%Z [1; 4]%Z
    = Err (NotFound 4).
Proof.
  split; [|split; vm_compute; reflexivity].
  intros T resolver resources ids. split.
  - apply filterArrayToMap_resolved.
  - intros pre x post -> Hpre Hno.
    split; [|intros post']; by apply filterArrayToMap_rejected.
Qed.

(** C6, at an instance: the two calls of the specification. *)
Lemma filterArrayToMap_spec_witness :
  let resources := [{| id := 1 |}; {| id := 2 |}; {| id := 3 |}]%Z in
  (∃ map, ResourceApi.filterArrayToMap (λ e, id e) resources [1; 3]%Z = Ok map
        ∧ dom map = list_to_set [1; 3]%Z
        ∧ ∀ x, x ∈ [1; 3]%Z → ∃ value, map !! x = Some value
                                      ∧ FirstMatch (λ e, id e) resources x value)
  ∧ ResourceApi.filterArrayToMap (λ e, id e) resources ([1] ++ 4 :: [])%Z
    = Err (NotFound 4).
Proof.
  intros resources.
  destruct filterArrayToMap_spec as [Hgen _]. split.
  - apply (proj1 (Hgen Elem (λ e, id e) resources [1; 3]%Z)).
    intros x [->|[->|?%elem_of_nil]%elem_of_cons]%elem_of_cons; [| |done].
    + exists {| id := 1 |}%Z. split; [set_solver|done].
    + exists {| id := 3 |}%Z. split; [set_solver|done].
  - apply (proj2 (Hgen Elem (λ e, id e) resources ([1] ++ 4 :: [])%Z) [1]%Z 4%Z []).
    + reflexivity.
    + intros x ->%list_elem_of_singleton. exists {| id := 1 |}%Z. split; [set_solver|done].
    + intros (v & Hv & Hr). unfold resources in Hv.
      repeat (apply elem_of_cons in Hv as [->|Hv]; [simpl in Hr; lia|]).
      by apply elem_of_nil in Hv.
Defined.

(** ** Resolution of an id list against a sequence *)

Section FilterIteratedToMap.
Import ResourceApi.
Context {T : Type}.
Variable resolver : T → Id.
Implicit Types (resources p : list T) (ids : list Id) (map : gmap Z T).

Lemma indexOf_from_spec ids x :
  ∀ i, (0 ≤ i)%Z →
    (x ∈ ids → (i ≤ indexOf_from ids x i)%Z)
    ∧ (x ∉ ids → indexOf_from ids x i = (-1)%Z).
Proof.
  induction ids as [|y ids IH]; intros i Hi; simpl.
  - split; [by intros ?%elem_of_nil|done].
  - destruct (bool_decide_reflect (y = x)) as [->|Hne].
    + split; [lia|]. intros Hx. destruct Hx. by left.
    + destruct (IH (i + 1)%Z ltac:(lia)) as [Hin Hout]. split.
      * intros [?|?]%elem_of_cons; [congruence|]. specialize (Hin ltac:(done)). lia.
      * intros Hx. apply Hout. intros ?. apply Hx. by right.
Qed.

Lemma indexOf_nonneg ids x :
  bool_decide (0 ≤ indexOf ids x)%Z = bool_decide (x ∈ ids).
Proof.
  destruct (indexOf_from_spec ids x 0 ltac:(lia)) as [Hin Hout]. unfold indexOf.
  apply bool_decide_ext. split.
  - intros Hge. destruct (decide (x ∈ ids)) as [|Hx]; [done|].
    rewrite (Hout Hx) in Hge. lia.
  - apply Hin.
Qed.

Lemma gather_snoc ids p e map :
  gather resolver ids (p ++ [e]) map
  = if bool_decide (resolver e ∈ ids)
    then <[resolver e := e]> (gather resolver ids p map) else gather resolver ids p map.
Proof. unfold gather. rewrite foldl_app. simpl. by rewrite indexOf_nonneg. Qed.

Lemma gather_lookup ids p :
  ∀ k, gather resolver ids p ∅ !! k = None ∨
       ∃ e, gather resolver ids p ∅ !! k = Some e ∧ e ∈ p ∧ resolver e = k ∧ k ∈ ids.
Proof.
  induction p as [|e p IH] using rev_ind; intros k.
  - left. unfold gather. simpl. apply lookup_empty.
  - rewrite gather_snoc. destruct (bool_decide_reflect (resolver e ∈ ids)) as [He|He].
    + destruct (decide (resolver e = k)) as [<-|Hne].
      * right. exists e. rewrite lookup_insert_eq. set_solver.
      * rewrite lookup_insert_ne by done.
        destruct (IH k) as [?|(e' & ? & ? & ? & ?)]; [by left|right].
        exists e'. set_solver.
    + destruct (IH k) as [?|(e' & ? & ? & ? & ?)]; [by left|right].
      exists e'. set_solver.
Qed.

Lemma gather_matched ids p k :
  k ∈ ids → Matched resolver p k → is_Some (gather resolver ids p ∅ !! k).
Proof.
  intros Hk. induction p as [|e p IH] using rev_ind; intros (v & Hv & Hr).
  - by apply elem_of_nil in Hv.
  - rewrite gather_snoc. destruct (decide (resolver e = k)) as [He|He].
    + rewrite He, bool_decide_eq_true_2 by done. rewrite lookup_insert_eq. by eexists.
    + assert (is_Some (gather resolver ids p ∅ !! k)) as Hsome.
      { apply IH. exists v. split; [|done].
        apply elem_of_app in Hv as [?| ->%list_elem_of_singleton]; [done|congruence]. }
      case_bool_decide; [|done]. by rewrite lookup_insert_ne.
Qed.

Lemma gather_dom ids p k :
  k ∈ dom (gather resolver ids p ∅) ↔ k ∈ ids ∧ Matched resolver p k.
Proof.
  rewrite elem_of_dom. split.
  - intros [e He]. destruct (gather_lookup ids p k) as [Hn|(e' & _ & Hin & Hr & Hk)];
      [congruence|]. split; [done|]. by exists e'.
  - intros [Hk Hm]. by apply gather_matched.
Qed.

(** For ids without duplicates the size test of the code decides
    whether every id was matched. *)
Lemma gather_size ids p :
  NoDup ids → size (gather resolver ids p ∅) = length ids ↔ Complete resolver p ids.
Proof.
  intros Hnd. rewrite <- size_dom, <- (size_list_to_set (C:=gset Z) ids) by done.
  assert (Hsub : dom (gather resolver ids p ∅) ⊆ list_to_set ids).
  { intros k [Hk _]%gather_dom. by apply elem_of_list_to_set. }
  split.
  - intros Hsize id Hid.
    assert (Heq : dom (gather resolver ids p ∅) = list_to_set ids)
      by (apply set_subseteq_size_eq; [done|lia]).
    assert (id ∈ dom (gather resolver ids p ∅)) as [_ ?]%gather_dom; [|done].
    rewrite Heq. by apply elem_of_list_to_set.
  - intros Hall. f_equal. apply set_eq. intros k. rewrite gather_dom, elem_of_list_to_set.
    split; [by intros [? _]|]. intros Hk. split; [done|by apply Hall].
Qed.

(** [collect] takes elements up to the first one after which the size
    test succeeds, or all of them. *)
Lemma collect_spec ids resources :
  ∀ map n0, ∃ k,
    k ≤ length resources
    ∧ collect resolver resources ids map n0 = (gather resolver ids (take k resources) map, n0 + k)
    ∧ (∀ j, 1 ≤ j < k → size (gather resolver ids (take j resources) map) ≠ length ids)
    ∧ ((1 ≤ k ∧ size (gather resolver ids (take k resources) map) = length ids)
       ∨ (k = length resources
          ∧ ∀ j, 1 ≤ j ≤ k → size (gather resolver ids (take j resources) map) ≠ length ids)).
Proof.
  induction resources as [|e rest IH]; intros map n0; simpl.
  - exists 0. split; [done|]. split; [by rewrite Nat.add_0_r|].
    split; [lia|]. right. split; [done|lia].
  - set (map' := if bool_decide (0 ≤ indexOf ids (resolver e))%Z
                 then <[resolver e := e]> map else map).
    destruct (bool_decide_reflect (size map' = length ids)) as [Hsz|Hsz].
    + exists 1. split; [lia|]. split; [by rewrite Nat.add_1_r|].
      split; [lia|]. left. split; [lia|]. simpl. rewrite ?take_0. done.
    + destruct (IH map' (S n0)) as (k & Hk & Hrun & Hmin & Hend).
      exists (S k). split; [lia|]. split; [rewrite Hrun; f_equal; lia|]. split.
      * intros [|[|j]] Hj; [lia|simpl; rewrite ?take_0; done|]. apply (Hmin (S j)). lia.
      * destruct Hend as [[Hk1 Hsize]|[-> Hall]]; [left; split; [lia|done]|right].
        split; [done|]. intros [|[|j]] Hj; [lia|simpl; rewrite ?take_0; done|].
        apply (Hall (S j)). lia.
Qed.

(** What comes after the element at which [collect] stops is not
    looked at. *)
Lemma collect_stop ids p rest :
  ∀ map n0, 1 ≤ length p →
    size (gather resolver ids p map) = length ids →
    (∀ j, 1 ≤ j < length p → size (gather resolver ids (take j p) map) ≠ length ids) →
    collect resolver (p ++ rest) ids map n0 = (gather resolver ids p map, n0 + length p).
Proof.
  induction p as [|e p IH]; intros map n0 Hlen Hsize Hmin; [simpl in Hlen; lia|].
  simpl. set (map' := if bool_decide (0 ≤ indexOf ids (resolver e))%Z
                      then <[resolver e := e]> map else map).
  destruct p as [|e' p].
  - simpl in Hsize. fold map' in Hsize. rewrite bool_decide_eq_true_2 by done.
    simpl. by rewrite Nat.add_1_r.
  - rewrite bool_decide_eq_false_2.
    + rewrite (IH map' (S n0)); [f_equal; simpl; lia|simpl; lia|done|].
      intros j Hj. apply (Hmin (S j)). simpl in *. lia.
    + specialize (Hmin 1 ltac:(simpl; lia)). simpl in Hmin. rewrite ?take_0 in Hmin. done.
Qed.

Lemma firstMissing_spec ids map :
  match firstMissing ids map with
  | None => ∀ id, id ∈ ids → is_Some (map !! id)
  | Some id => ∃ pre post, ids = pre ++ id :: post
                         ∧ (∀ x, x ∈ pre → is_Some (map !! x))
                         ∧ map !! id = None
  end.
Proof.
  induction ids as [|x ids IH]; simpl.
  - by intros id ?%elem_of_nil.
  - destruct (has map x) eqn:Hx; simpl.
    + apply has_true in Hx. destruct (firstMissing ids map) as [id|].
      * destruct IH as (pre & post & -> & Hpre & Hid). exists (x :: pre), post.
        split; [done|]. split; [|done].
        intros y [->|Hy]%elem_of_cons; [done|by apply Hpre].
      * intros id [->|Hid]%elem_of_cons; [done|by apply IH].
    + exists [], ids. split; [done|]. split; [by intros ? ?%elem_of_nil|].
      apply eq_None_not_Some. intros Hs. apply has_true in Hs. congruence.
Qed.

(** Whatever the ids, a map as large as the list of the requested ids
    has an entry for each of them. *)
Lemma gather_size_Complete ids p :
  size (gather resolver ids p ∅) = length ids → Complete resolver p ids.
Proof.
  intros Hsize id Hid.
  assert (Hsub : dom (gather resolver ids p ∅) ⊆ list_to_set ids).
  { intros k [Hk _]%gather_dom. by apply elem_of_list_to_set. }
  assert (Hle : size (list_to_set ids : gset Z) ≤ length ids).
  { clear. induction ids as [|x ids IH].
    - by rewrite list_to_set_nil, size_empty.
    - rewrite list_to_set_cons, size_union_alt, size_singleton.
      pose proof (subseteq_size (list_to_set ids ∖ {[x]}) (list_to_set ids : gset Z)
                    ltac:(set_solver)). simpl. lia. }
  assert (Heq : dom (gather resolver ids p ∅) = list_to_set ids).
  { apply set_subseteq_size_eq; [done|]. rewrite size_dom. lia. }
  assert (id ∈ dom (gather resolver ids p ∅)) as [_ ?]%gather_dom; [|done].
  rewrite Heq. by apply elem_of_list_to_set.
Qed.

Lemma Complete_take ids resources k :
  Complete resolver (take k resources) ids → Complete resolver resources ids.
Proof.
  intros Hc id Hid. destruct (Hc id Hid) as (v & Hv & Hr). exists v.
  split; [|done]. by apply (subseteq_take k resources).
Qed.

(** C7, as the code has it. [filterIteratedToMap] takes a prefix of the
    sequence, each element once, and at least one element of a sequence
    that is not empty: the test for the early exit is made after an
    element was taken. Whatever the requested ids: when every id has a
    matching element in the sequence, it has one among the elements taken,
    and the promise resolves to the collected map, whose keys are the
    requested ids, each bound to an element taken from the sequence that
    resolves to it; otherwise the whole sequence is taken and the promise
    rejects with the NotFound error of the first requested id, in the
    order of [ids], that no element of the sequence resolves to. For
    requested ids without duplicates, moreover, the sequence is left right
    after the first element with which every requested id has been matched
    (what follows in the sequence is not looked at), and the size of the
    collected map differs from the number of requested ids exactly when
    the promise rejects. *)
Theorem filterIteratedToMap_spec resources ids :
  ∃ n r map,
    filterIteratedToMap resolver resources ids = (n, r)
    ∧ collect resolver resources ids ∅ 0 = (map, n)
    ∧ n ≤ length resources
    ∧ (resources ≠ [] → 1 ≤ n)
    ∧ (Complete resolver resources ids →
         Complete resolver (take n resources) ids
         ∧ r = Ok map ∧ dom map = list_to_set ids
         ∧ ∀ id, id ∈ ids →
             ∃ e, map !! id = Some e ∧ e ∈ take n resources ∧ resolver e = id)
    ∧ (¬ Complete resolver resources ids →
         n = length resources
         ∧ ∃ pre id post, ids = pre ++ id :: post
             ∧ (∀ x, x ∈ pre → Matched resolver resources x)
             ∧ ¬ Matched resolver resources id
             ∧ r = Err (NotFound id))
    ∧ (NoDup ids →
         (∀ k, 1 ≤ k < n → ¬ Complete resolver (take k resources) ids)
         ∧ (n < length resources → Complete resolver (take n resources) ids)
         ∧ (∀ rest, 1 ≤ n → Complete resolver (take n resources) ids →
              filterIteratedToMap resolver (take n resources ++ rest) ids = (n, r))
         ∧ (size map = length ids ↔ Complete resolver (take n resources) ids)
         ∧ (size map ≠ length ids ↔ ∃ id, r = Err (NotFound id))).
Proof.
  destruct (collect_spec ids resources ∅ 0) as (k & Hk & Hrun & Hmin & Hend).
  simpl in Hrun. set (map := gather resolver ids (take k resources) ∅) in *.
  (* the promise, by the size test *)
  assert (Hfull : size map = length ids →
            filterIteratedToMap resolver resources ids = (k, Ok map)).
  { intros Heq. unfold filterIteratedToMap. rewrite Hrun.
    by rewrite bool_decide_eq_false_2 by (intros ?; done). }
  assert (Hshort : size map ≠ length ids →
            k = length resources
            ∧ filterIteratedToMap resolver resources ids
              = (k, match firstMissing ids map with
                    | Some id => Err (NotFound id)
                    | None => Ok map
                    end)).
  { intros Hne. split; [destruct Hend as [[_ ?]|[? _]]; done|].
    unfold filterIteratedToMap. rewrite Hrun.
    by rewrite bool_decide_eq_true_2 by done. }
  (* the first missing id *)
  assert (Hmissing : k = length resources →
            match firstMissing ids map with
            | Some id => ∃ pre post, ids = pre ++ id :: post
                           ∧ (∀ x, x ∈ pre → Matched resolver resources x)
                           ∧ ¬ Matched resolver resources id
            | None => Complete resolver resources ids
            end).
  { intros ->. subst map. rewrite take_ge by lia.
    pose proof (firstMissing_spec ids (gather resolver ids resources ∅)) as Hfm.
    destruct (firstMissing ids (gather resolver ids resources ∅)) as [id|].
    - destruct Hfm as (pre & post & -> & Hpre & Hid). exists pre, post.
      split; [done|]. split.
      + intros x Hx.
        assert (x ∈ dom (gather resolver (pre ++ id :: post) resources ∅))
          as [_ ?]%gather_dom; [|done].
        apply elem_of_dom. by apply Hpre.
      + intros Hm.
        assert (is_Some (gather resolver (pre ++ id :: post) resources ∅ !! id))
          as [? ?]; [|congruence].
        apply gather_matched; [|done]. set_solver.
    - intros id Hid.
      assert (id ∈ dom (gather resolver ids resources ∅)) as [_ ?]%gather_dom; [|done].
      apply elem_of_dom. by apply Hfm. }
  (* the bindings of a complete map *)
  assert (Hbind : Complete resolver (take k resources) ids →
            dom map = list_to_set ids
            ∧ ∀ id, id ∈ ids →
                ∃ e, map !! id = Some e ∧ e ∈ take k resources ∧ resolver e = id).
  { intros Hc. split.
    - apply set_eq. intros id. unfold map. rewrite gather_dom, elem_of_list_to_set.
      split; [by intros [? _]|]. intros Hid. split; [done|]. by apply Hc.
    - intros id Hid. destruct (gather_lookup ids (take k resources) id)
        as [Hnone|(e & He & Hin & Hr & _)]; [|by exists e].
      assert (is_Some (map !! id)) as [? ?]; [|unfold map in *; congruence].
      apply gather_matched; [done|]. by apply Hc. }
  destruct (decide (size map = length ids)) as [Heq|Hne].
  - (* every id matched among the elements taken *)
    pose proof (gather_size_Complete ids (take k resources) Heq) as Hc.
    exists k, (Ok map), map.
    split; [by apply Hfull|]. split; [done|]. split; [done|].
    split; [intros Hres; destruct Hend as [[? _]|[-> _]];
            [done|destruct resources; [done|simpl; lia]]|].
    split; [intros _; split; [done|]; split; [done|by apply Hbind]|].
    split; [intros Hnc; destruct Hnc; by eapply Complete_take|].
    intros Hnd. pose proof (gather_size ids) as Hsize.
    split; [intros j Hj Hcj; apply (Hmin j Hj); by apply Hsize|].
    split; [done|]. split; [|split; [done|]].
    + intros rest Hn _. unfold filterIteratedToMap.
      rewrite (collect_stop ids (take k resources) rest ∅ 0).
      * fold map. rewrite length_take, Nat.min_l by done.
        by rewrite bool_decide_eq_false_2 by (intros ?; done).
      * rewrite length_take. lia.
      * done.
      * intros j. rewrite length_take. intros Hj.
        rewrite take_take, Nat.min_l by lia. apply Hmin. lia.
    + split; [done|]. by intros [id [=]].
  - (* the whole sequence was taken *)
    destruct (Hshort Hne) as [Hall Hrun']. specialize (Hmissing Hall).
    eexists k, _, map. split; [exact Hrun'|]. split; [done|]. split; [done|].
    split; [intros Hres; rewrite Hall; destruct resources; [done|simpl; lia]|].
    assert (Htake : take k resources = resources) by (rewrite Hall; by apply take_ge).
    destruct (firstMissing ids map) as [id|].
    + destruct Hmissing as (pre & post & Hids & Hpre & Hid).
      assert (Hnc : ¬ Complete resolver resources ids).
      { intros Hc. apply Hid, Hc. rewrite Hids. set_solver. }
      split; [by intros ?|].
      split; [intros _; split; [done|]; by exists pre, id, post|].
      intros Hnd. pose proof (gather_size ids) as Hsize.
      split; [intros j Hj Hcj; apply (Hmin j Hj); by apply Hsize|].
      split; [lia|]. split; [|split].
      * intros rest _ Hc. destruct Hnc. by eapply Complete_take.
      * split; [done|]. intros Hc. destruct Hnc. by eapply Complete_take.
      * split; [by eexists|done].
    + rewrite <- Htake in Hmissing.
      split; [intros _; split; [done|]; split; [done|by apply Hbind]|].
      split; [intros Hnc; destruct Hnc; by eapply Complete_take|].
      intros Hnd. destruct Hne. by apply (gather_size ids).
Qed.

End FilterIteratedToMap.

(** C7, at an instance: the third of four elements completes the ids. *)
Lemma filterIteratedToMap_spec_witness :
  NoDup [3; 1]%Z ∧
  ∃ n r map,
    ResourceApi.filterIteratedToMap (λ e, id e)
      [{| id := 1 |}; {| id := 2 |}; {| id := 3 |}; {| id := 4 |}]%Z [3; 1]%Z = (n, r)
    ∧ n = 3 ∧ r = Ok map
    ∧ map !! 1%Z = Some {| id := 1 |} ∧ map !! 3%Z = Some {| id := 3 |}.
Proof.
  assert (Hnd : NoDup [3; 1]%Z)
    by (apply NoDup_cons_2; [set_solver|apply NoDup_singleton]).
  split; [exact Hnd|].
  destruct (filterIteratedToMap_spec (λ e, id e)
    [{| id := 1 |}; {| id := 2 |}; {| id := 3 |}; {| id := 4 |}]%Z [3; 1]%Z)
    as (n & r & map & Hrun & _).
  exists n, r, (<[3 := {| id := 3 |}]> (<[1 := {| id := 1 |}]> ∅))%Z.
  split; [exact Hrun|]. vm_compute in Hrun. injection Hrun as <- <-.
  repeat split; reflexivity.
Defined.

(** With no requested id, every requested id has been matched before
    any element is taken from the sequence; the first element of the
    sequence is taken all the same, the test for the early exit being made
    after an element. *)
Lemma filterIteratedToMap_empty_ids :
  Complete (λ e, id e) [] []
  ∧ ResourceApi.filterIteratedToMap (λ e, id e)
      [{| id := 1 |}; {| id := 2 |}]%Z []
    = (1, Ok ∅).
Proof. split; [by intros x ?%elem_of_nil|]. vm_compute. reflexivity. Qed.

(** Outside the assumption of the documentation, with a repeated id in
    [ids], the size of the map never reaches the length of [ids]: the
    whole sequence is taken although the first element matches every
    requested id, and the promise resolves although the sizes differ. *)
Lemma filterIteratedToMap_duplicate_ids :
  ∃ map,
    ResourceApi.filterIteratedToMap (λ e, id e)
      [{| id := 1 |}; {| id := 2 |}]%Z [1; 1]%Z
    = (2, Ok map)
    ∧ ResourceApi.collect (λ e, id e) [{| id := 1 |}; {| id := 2 |}]%Z [1; 1]%Z ∅ 0
      = (map, 2)
    ∧ size map ≠ length [1; 1]%Z
    ∧ Complete (λ e, id e) [{| id := 1 |}]%Z [1; 1]%Z.
Proof.
  exists (<[1 := {| id := 1 |}]> ∅)%Z. split; [vm_compute; reflexivity|].
  split; [vm_compute; reflexivity|]. split.
  - rewrite map_size_insert_None, map_size_empty by apply lookup_empty. simpl. lia.
  - intros x Hx. exists {| id := 1 |}%Z. split; [by left|]. simpl. set_solver.
Qed.

(** ** Streamers *)

Section StreamerTraces.
Context {A R Y : Type}.
Implicit Types tr pre post : list (event A R Y).

(** A request of a trace that starts with yields lies behind them. *)
Lemma yields_prefix_split (l : list Y) tr pre a r post :
  map Yield l ++ tr = pre ++ Request a r :: post →
  ∃ pre', pre = map Yield l ++ pre' ∧ tr = pre' ++ Request a r :: post.
Proof.
  revert pre. induction l as [|y l IH]; intros pre Heq; simpl in *.
  - by exists pre.
  - destruct pre as [|ev pre]; simpl in Heq; [congruence|].
    injection Heq as <- Heq. destruct (IH pre Heq) as (pre' & -> & ->).
    by exists pre'.
Qed.

End StreamerTraces.

Section MaxIDStreamer.
Import ResourceApi.
Context {E St T : Type}.
Variable pageLoader : St → option Id → result E (list T) * St.
Variable idResolver : T → Id.
Variable maxPageSize : option nat.

(** A run that is not cut by the bound fetches at least once. *)
Lemma getMaxIDIterator_from_fetches fuel st maxID :
  let run := getMaxIDIterator_from pageLoader idResolver maxPageSize fuel st maxID in
  requests run.1 ≠ [] ∨ run.2 = Unfinished.
Proof.
  destruct fuel as [|fuel]; simpl; [by right|]. left.
  destruct (pageLoader st maxID) as [[page|e] st']; [|done].
  destruct (length page =? 0); [done|].
  destruct (shortPage maxPageSize (length page)); done.
Qed.

(** After a fetched page the run fetches no more and returns exactly
    when the page is empty or short. *)
Lemma getMaxIDIterator_from_stops fuel :
  ∀ st maxID pre arg page post,
    let run := getMaxIDIterator_from pageLoader idResolver maxPageSize fuel st maxID in
    run.1 = pre ++ Request arg (Ok page) :: post →
    (requests post = [] ∧ run.2 = Finished
     ↔ page = [] ∨ shortPage maxPageSize (length page) = true).
Proof.
  induction fuel as [|fuel IH]; intros st maxID pre arg page post; simpl.
  { by destruct pre. }
  destruct (pageLoader st maxID) as [[els|e] st'].
  2: { destruct pre as [|? [|? ?]]; simpl; intros [=]. }
  destruct (Nat.eqb_spec (length els) 0) as [Hlen|Hlen].
  { destruct pre as [|? [|? ?]]; simpl; intros [=]; subst.
    split; [|done]. intros _. left. by apply nil_length_inv. }
  destruct (shortPage maxPageSize (length els)) eqn:Hshort.
  { destruct pre as [|ev pre]; simpl; intros [=]; subst.
    - rewrite requests_yields. split; [by right|done].
    - exfalso. match goal with H : map Yield _ = _ |- _ =>
        apply (f_equal requests) in H;
        rewrite requests_yields, requests_app in H; simpl in H;
        by destruct (requests pre) end. }
  unfold after. simpl. destruct pre as [|ev pre]; simpl; intros [=]; subst.
  - rewrite requests_app, requests_yields. simpl. rewrite Hshort.
    pose proof (getMaxIDIterator_from_fetches fuel st'
                  (idResolver <$> last page)) as Hf. simpl in Hf.
    split.
    + intros [Hreq Hfin]. destruct Hf as [Hf|Hf]; [done|congruence].
    + intros [->|?]; done.
  - match goal with H : map Yield _ ++ _ = _ |- _ =>
      apply yields_prefix_split in H as (pre' & -> & Htr) end.
    by apply IH in Htr.
Qed.

(** A run that returns has a last fetched page. *)
Lemma getMaxIDIterator_from_last fuel :
  ∀ st maxID,
    let run := getMaxIDIterator_from pageLoader idResolver maxPageSize fuel st maxID in
    run.2 = Finished →
    ∃ pre arg page post, run.1 = pre ++ Request arg (Ok page) :: post
                       ∧ requests post = [].
Proof.
  induction fuel as [|fuel IH]; intros st maxID; simpl; [done|].
  destruct (pageLoader st maxID) as [[els|e] st']; [|done].
  destruct (length els =? 0); [intros _; by exists [], maxID, els, []|].
  destruct (shortPage maxPageSize (length els)).
  { intros _. exists [], maxID, els, (map Yield els). by rewrite requests_yields. }
  unfold after. simpl. intros Hfin.
  destruct (IH _ _ Hfin) as (pre & arg & page & post & -> & Hpost).
  exists (Request maxID (Ok els) :: map Yield els ++ pre), arg, page, post.
  split; [simpl; by rewrite <- app_assoc|done].
Qed.

End MaxIDStreamer.

Section PageBasedStreamer.
Import ResourceApi.
Context {E St T : Type}.
Variable pageLoader : St → nat → result E (PageResults T) * St.
Variable maxPageSize : option nat.
Implicit Types tr pre post : list (event nat (result E (PageResults T)) T).

Lemma maxPagesHint_yields (l : list T) tr :
  maxPagesHint (E:=E) (map Yield l ++ tr) = maxPagesHint tr.
Proof. induction l as [|y l IH]; [done|]. simpl. apply IH. Qed.

Lemma hintFrom_step maxPages page pageResults (l : list T) tr :
  hintFrom maxPages (Request page (Ok pageResults) :: map Yield l ++ tr)
  = hintFrom (captureMaxPages pageResults maxPages) tr.
Proof.
  destruct maxPages as [m|]; simpl.
  - by destruct pageResults as [?|? [?|]].
  - destruct pageResults as [?|? [?|]]; simpl; try done;
      unfold maxPagesHint; simpl; apply maxPagesHint_yields.
Qed.

Lemma hintFrom_one maxPages page (pageResults : PageResults T) :
  hintFrom (E:=E) maxPages [Request page (Ok pageResults)]
  = captureMaxPages pageResults maxPages.
Proof.
  destruct maxPages as [m|]; simpl; by destruct pageResults as [?|? [?|]].
Qed.

Lemma morePages_false maxPages page :
  morePages maxPages page = false ↔ ∃ M, maxPages = Some M ∧ M ≤ page.
Proof.
  destruct maxPages as [m|]; simpl.
  - rewrite Nat.ltb_ge. split; [intros; by exists m|]. by intros (M & [= <-] & ?).
  - split; [done|]. by intros (M & ? & _).
Qed.

(** The loop is left at once exactly when a hint is in force that the
    page number has reached. *)
Lemma getPageBasedIterator_from_first fuel st page maxPages :
  let run := getPageBasedIterator_from pageLoader maxPageSize fuel st page maxPages in
  requests run.1 = [] ∧ run.2 = Finished ↔ ∃ M, maxPages = Some M ∧ M ≤ page.
Proof.
  cbv zeta. rewrite <- morePages_false.
  destruct fuel as [|fuel]; simpl; destruct (morePages maxPages page);
    try (split; [by intros [_ ?]|done]); try done.
  split; [|done].
  destruct (pageLoader st page) as [[pr|e] st']; [|by intros [? _]].
  simpl. destruct (length (elementsOf pr) =? 0); [by intros [? _]|].
  destruct (shortPage maxPageSize (length (elementsOf pr))); by intros [? _].
Qed.

(** After a fetched page the run fetches no more and returns exactly
    when the page is empty, or short, or a hint is in force that the
    next page number has reached. *)
Lemma getPageBasedIterator_from_stops fuel :
  ∀ st page maxPages pre p pageResults post,
    let run := getPageBasedIterator_from pageLoader maxPageSize fuel st page maxPages in
    run.1 = pre ++ Request p (Ok pageResults) :: post →
    (requests post = [] ∧ run.2 = Finished
     ↔ elementsOf pageResults = []
       ∨ shortPage maxPageSize (length (elementsOf pageResults)) = true
       ∨ ∃ M, hintFrom maxPages (pre ++ [Request p (Ok pageResults)]) = Some M
            ∧ M ≤ p + 1).
Proof.
  induction fuel as [|fuel IH]; intros st page maxPages pre p pr post; simpl;
    destruct (morePages maxPages page) eqn:Hmore; try (by destruct pre).
  destruct (pageLoader st page) as [[pr0|e] st'].
  2: { destruct pre as [|? [|? ?]]; simpl; intros [=]. }
  destruct (Nat.eqb_spec (length (elementsOf pr0)) 0) as [Hlen|Hlen].
  { destruct pre as [|? [|? ?]]; simpl; intros [=]; subst.
    split; [|done]. intros _. left. by apply nil_length_inv. }
  destruct (shortPage maxPageSize (length (elementsOf pr0))) eqn:Hshort.
  { destruct pre as [|ev pre]; simpl; intros [=]; subst.
    - rewrite requests_yields. split; [by right; left|done].
    - exfalso. match goal with H : map Yield _ = _ |- _ =>
        apply (f_equal requests) in H;
        rewrite requests_yields, requests_app in H; simpl in H;
        by destruct (requests pre) end. }
  unfold after. simpl. destruct pre as [|ev pre]; simpl; intros [=]; subst.
  - rewrite requests_app, requests_yields. simpl. rewrite Hshort.
    rewrite (hintFrom_one maxPages).
    pose proof (getPageBasedIterator_from_first fuel st' (p + 1)
                  (captureMaxPages pr maxPages)) as Hf. simpl in Hf.
    rewrite Hf. split; [by right; right|].
    intros [Hnil|[?|?]]; [|done..]. destruct Hlen. by rewrite Hnil.
  - match goal with H : map Yield _ ++ _ = _ |- _ =>
      apply yields_prefix_split in H as (pre' & -> & Htr) end.
    rewrite <- app_assoc, hintFrom_step. by apply IH in Htr.
Qed.

(** A page is only asked for while its number is below the hint in
    force. *)
Lemma getPageBasedIterator_from_bound fuel :
  ∀ st page maxPages pre p r post M,
    (getPageBasedIterator_from pageLoader maxPageSize fuel st page maxPages).1
    = pre ++ Request p r :: post →
    hintFrom maxPages pre = Some M → p < M.
Proof.
  induction fuel as [|fuel IH]; intros st page maxPages pre p r post M; simpl;
    destruct (morePages maxPages page) eqn:Hmore; try (by destruct pre).
  assert (Hhere : hintFrom (E:=E) (T:=T) maxPages [] = Some M → page < M).
  { destruct maxPages as [m|]; simpl; [|done]. intros [= ->].
    simpl in Hmore. by apply Nat.ltb_lt. }
  destruct (pageLoader st page) as [[pr0|e] st'].
  2: { destruct pre as [|? [|? ?]]; simpl; intros [=]; subst. done. }
  destruct (Nat.eqb_spec (length (elementsOf pr0)) 0) as [Hlen|Hlen].
  { destruct pre as [|? [|? ?]]; simpl; intros [=]; subst. done. }
  destruct (shortPage maxPageSize (length (elementsOf pr0))) eqn:Hshort.
  { destruct pre as [|ev pre]; simpl; intros [=]; subst; [done|].
    exfalso. match goal with H : map Yield _ = _ |- _ =>
      apply (f_equal requests) in H;
      rewrite requests_yields, requests_app in H; simpl in H;
      by destruct (requests pre) end. }
  unfold after. simpl. destruct pre as [|ev pre]; simpl; intros [=]; subst; [done|].
  match goal with H : map Yield _ ++ _ = _ |- _ =>
    apply yields_prefix_split in H as (pre' & -> & Htr) end.
  rewrite hintFrom_step. intros Hhint. by eapply IH.
Qed.

(** A run that returns has a last fetched page, unless the loop was
    not entered. *)
Lemma getPageBasedIterator_from_last fuel :
  ∀ st page maxPages,
    let run := getPageBasedIterator_from pageLoader maxPageSize fuel st page maxPages in
    run.2 = Finished →
    (run.1 = [] ∧ morePages maxPages page = false)
    ∨ ∃ pre p pageResults post, run.1 = pre ++ Request p (Ok pageResults) :: post
                              ∧ requests post = [].
Proof.
  induction fuel as [|fuel IH]; intros st page maxPages; simpl;
    destruct (morePages maxPages page) eqn:Hmore; try done; try (by left).
  destruct (pageLoader st page) as [[pr|e] st']; [|done]. intros Hfin. right.
  destruct (length (elementsOf pr) =? 0); [by exists [], page, pr, []|].
  destruct (shortPage maxPageSize (length (elementsOf pr))).
  { exists [], page, pr, (map Yield (elementsOf pr)). by rewrite requests_yields. }
  unfold after in *. simpl in *.
  destruct (IH _ _ _ Hfin) as [[-> _]|(pre & p & pr' & post & -> & Hpost)].
  - exists [], page, pr, (map Yield (elementsOf pr) ++ []).
    by rewrite requests_app, requests_yields.
  - exists (Request page (Ok pr) :: map Yield (elementsOf pr) ++ pre), p, pr', post.
    split; [simpl; by rewrite <- app_assoc|done].
Qed.

End PageBasedStreamer.

(** C2, as the code has it. A sequence of the max-id streamer fetches no
    further page and returns exactly when the page it fetched is empty or,
    the full-page size being known, has fewer elements than that size. A
    sequence of the page-number streamer does so exactly when the page it
    fetched is empty, or is short in the same sense, or a [maxPages] hint
    has been captured that the next page number is not below. A sequence
    of either streamer that returns has such a last page. *)
Theorem streamers_stop {E St T : Type} :
  (∀ (pageLoader : St → option Id → result E (list T) * St) idResolver
     maxPageSize fuel st,
     let run := ResourceApi.getMaxIDIterator pageLoader idResolver maxPageSize fuel st in
     (run.2 = Finished →
        ∃ pre arg page post, run.1 = pre ++ Request arg (Ok page) :: post
                           ∧ requests post = [])
     ∧ ∀ pre arg page post,
         run.1 = pre ++ Request arg (Ok page) :: post →
         (requests post = [] ∧ run.2 = Finished
          ↔ page = [] ∨ ResourceApi.shortPage maxPageSize (length page) = true))
  ∧ (∀ (pageLoader : St → nat → result E (ResourceApi.PageResults T) * St)
       maxPageSize fuel st,
       let run := ResourceApi.getPageBasedIterator pageLoader maxPageSize fuel st in
       (run.2 = Finished →
          ∃ pre p pageResults post,
            run.1 = pre ++ Request p (Ok pageResults) :: post ∧ requests post = [])
       ∧ ∀ pre p pageResults post,
           run.1 = pre ++ Request p (Ok pageResults) :: post →
           (requests post = [] ∧ run.2 = Finished
            ↔ ResourceApi.elementsOf pageResults = []
              ∨ ResourceApi.shortPage maxPageSize
                  (length (ResourceApi.elementsOf pageResults)) = true
              ∨ ∃ M, ResourceApi.maxPagesHint (pre ++ [Request p (Ok pageResults)])
                     = Some M
                   ∧ M ≤ p + 1)).
Proof.
  split.
  - intros pageLoader idResolver maxPageSize fuel st run. split.
    + apply getMaxIDIterator_from_last.
    + intros pre arg page post. apply getMaxIDIterator_from_stops.
  - intros pageLoader maxPageSize fuel st run. split.
    + intros Hfin.
      destruct (getPageBasedIterator_from_last pageLoader maxPageSize fuel st 1 None Hfin)
        as [[_ ?]|?]; done.
    + intros pre p pr post Hrun.
      apply (getPageBasedIterator_from_stops pageLoader maxPageSize fuel st 1 None
               pre p pr post Hrun).
Qed.

(** C2, at an instance: the run of [twoPages] with a full-page size of two. *)
Lemma streamers_stop_witness :
  let run := ResourceApi.getPageBasedIterator twoPages (Some 2) 5 () in
  let pageResults := ResourceApi.WithMaxPages [10; 20]%Z (Some 2) in
  run.1 = [] ++ Request 1 (Ok pageResults) :: [Yield 10%Z; Yield 20%Z]
  ∧ (requests (A:=nat) (R:=result unit (ResourceApi.PageResults Id))
       [Yield 10%Z; Yield 20%Z] = [] ∧ run.2 = Finished
     ↔ ResourceApi.elementsOf pageResults = []
       ∨ ResourceApi.shortPage (Some 2) (length (ResourceApi.elementsOf pageResults)) = true
       ∨ ∃ M, ResourceApi.maxPagesHint (E:=unit) ([] ++ [Request 1 (Ok pageResults)])
              = Some M
            ∧ M ≤ 1 + 1).
Proof.
  split; [reflexivity|].
  apply (proj2 (proj2 (streamers_stop (E:=unit) (St:=unit) (T:=Id)) twoPages (Some 2) 5 ())).
  reflexivity.
Defined.

(** The page-number streamer returns after a page that is neither empty
    nor short: the hint of two pages ends the loop before page 2 is asked
    for. *)
Lemma getPageBasedIterator_stops_on_maxPages :
  ResourceApi.getPageBasedIterator twoPages (Some 2) 5 ()
  = ([Request 1 (Ok (ResourceApi.WithMaxPages [10; 20]%Z (Some 2)));
      Yield 10%Z; Yield 20%Z], Finished)
  ∧ ¬ ([10; 20]%Z = []
       ∨ ResourceApi.shortPage (Some 2) (length [10; 20]%Z) = true).
Proof. split; [reflexivity|]. intros [?|?]; discriminate. Qed.

(** ** The bound of the [maxPages] hint *)

(** C9. Once a sequence of the page-number streamer has captured a
    [maxPages] hint [M], every page it asks for after that has a number
    below [M]: the page [M] itself is never fetched once the hint is
    known. *)
Theorem getPageBasedIterator_maxPages_bound {E St T : Type}
    (pageLoader : St → nat → result E (ResourceApi.PageResults T) * St)
    (maxPageSize : option nat) (fuel : nat) (st : St) pre page response post M :
  (ResourceApi.getPageBasedIterator pageLoader maxPageSize fuel st).1
  = pre ++ Request page response :: post →
  ResourceApi.maxPagesHint pre = Some M →
  page < M.
Proof.
  intros Hrun Hhint.
  by apply (getPageBasedIterator_from_bound pageLoader maxPageSize fuel st 1 None
              pre page response post M Hrun).
Qed.

(** With full pages and a hint of three pages, pages 1 and 2 are fetched
    and page 3 is not. *)
Example getPageBasedIterator_threePages :
  ResourceApi.getPageBasedIterator threePages (Some 2) 5 ()
  = ([Request 1 (Ok (ResourceApi.WithMaxPages [10; 20]%Z (Some 3)));
      Yield 10%Z; Yield 20%Z;
      Request 2 (Ok (ResourceApi.WithMaxPages [10; 20]%Z (Some 3)));
      Yield 10%Z; Yield 20%Z], Finished).
Proof. reflexivity. Qed.

(** C9, at an instance: the second request of the run of [threePages]. *)
Lemma getPageBasedIterator_maxPages_bound_witness :
  let first := Request (Y:=Id) 1
                 (Ok (E:=unit) (ResourceApi.WithMaxPages [10; 20]%Z (Some 3))) in
  (ResourceApi.getPageBasedIterator threePages (Some 2) 5 ()).1
  = [first; Yield 10%Z; Yield 20%Z]
    ++ Request 2 (Ok (ResourceApi.WithMaxPages [10; 20]%Z (Some 3)))
    :: [Yield 10%Z; Yield 20%Z]
  ∧ ResourceApi.maxPagesHint [first; Yield 10%Z; Yield 20%Z] = Some 3
  ∧ 2 < 3.
Proof.
  split; [reflexivity|]. split; [reflexivity|].
  apply (getPageBasedIterator_maxPages_bound threePages (Some 2) 5 ()
           [Request 1 (Ok (ResourceApi.WithMaxPages [10; 20]%Z (Some 3)));
            Yield 10%Z; Yield 20%Z]
           2 (Ok (ResourceApi.WithMaxPages [10; 20]%Z (Some 3)))
           [Yield 10%Z; Yield 20%Z] 3); reflexivity.
Defined.

(** ** Cursor advancement *)

(** C3. The max-id streamer over the pages [[{id:10},{id:9}]], [[{id:8}]],
    [[]] with [e => e.id] as id resolver and no full-page size calls the
    page loader with [undefined], then [9], then [8], yields the three
    elements in page order, and returns after the empty third page: there
    is no fourth call, however many the bound on the loop allows. *)
Theorem getMaxIDIterator_cursor (k : nat) :
  let pages := [[{| id := 10 |}; {| id := 9 |}]; [{| id := 8 |}]; []]%Z in
  let run := ResourceApi.getMaxIDIterator (E:=unit) scripted (λ e, id e) None (3 + k) pages in
  run = ([Request None (Ok [{| id := 10 |}; {| id := 9 |}]%Z);
          Yield {| id := 10 |}%Z; Yield {| id := 9 |}%Z;
          Request (Some 9%Z) (Ok [{| id := 8 |}]%Z);
          Yield {| id := 8 |}%Z;
          Request (Some 8%Z) (Ok [])], Finished)
  ∧ map fst (requests run.1) = [None; Some 9%Z; Some 8%Z]
  ∧ yields run.1 = [{| id := 10 |}; {| id := 9 |}; {| id := 8 |}]%Z
  ∧ run.2 = Finished.
Proof. repeat split; reflexivity. Qed.

(** With a full-page size of two the second page is short and ends the
    sequence: the third page is not asked for. *)
Example getMaxIDIterator_cursor_short :
  map fst (requests (ResourceApi.getMaxIDIterator (E:=unit) scripted (λ e, id e) (Some 2) 5
                       [[{| id := 10 |}; {| id := 9 |}]; [{| id := 8 |}]; []]%Z).1)
  = [None; Some 9%Z].
Proof. reflexivity. Qed.

(** ** The ids of a mapped resource *)

Section MappedResourceIds.
Import ResourceApi.
Implicit Types (a l : list Id) (s : JSSet.t).

Lemma elem_of_firstOccurrences a x : x ∈ firstOccurrences a ↔ x ∈ a.
Proof.
  induction a as [|y a IH]; simpl; [done|].
  rewrite !elem_of_cons, list_elem_of_filter, IH.
  destruct (decide (x = y)); naive_solver.
Qed.

Lemma NoDup_firstOccurrences a : NoDup (firstOccurrences a).
Proof.
  induction a as [|y a IH]; simpl; [constructor|].
  apply NoDup_cons_2; [|by apply NoDup_filter].
  rewrite list_elem_of_filter. by intros [? _].
Qed.

Lemma firstOccurrences_NoDup l : NoDup l → firstOccurrences l = l.
Proof.
  induction 1 as [|x l Hx Hnd IH]; simpl; [done|]. rewrite IH. f_equal.
  clear -Hx. induction l as [|y l IHl]; [done|].
  rewrite filter_cons_True by (intros ->; apply Hx; by left).
  f_equal. apply IHl. intros ?. apply Hx. by right.
Qed.

(** Adding the elements of [a] to a set appends those that are new, in
    the order of their first occurrence. *)
Lemma JSSet_add_all a :
  ∀ s, JSSet.entries (foldl (λ s x, JSSet.add x s) s a)
       = JSSet.entries s ++ filter (λ y, y ∉ JSSet.entries s) (firstOccurrences a).
Proof.
  induction a as [|x a IH]; intros s; simpl; [by rewrite app_nil_r|].
  rewrite IH. unfold JSSet.add, JSSet.has.
  destruct (bool_decide_reflect (x ∈ JSSet.entries s)) as [Hx|Hx].
  - rewrite filter_cons_False by (intros ?; done). f_equal.
    rewrite list_filter_filter_l; [done|]. intros y Hy ->. done.
  - rewrite filter_cons_True by done. simpl. rewrite <- app_assoc. simpl.
    do 2 f_equal. rewrite list_filter_filter. apply list_filter_iff.
    intros y. rewrite not_elem_of_app, list_elem_of_singleton. done.
Qed.

Lemma JSSet_from_array a :
  JSSet.to_array (JSSet.from_array a) = firstOccurrences a.
Proof.
  unfold JSSet.to_array, JSSet.from_array. rewrite JSSet_add_all. simpl.
  induction (firstOccurrences a) as [|y l IH]; [done|].
  rewrite filter_cons_True by (by intros ?%elem_of_nil). by f_equal.
Qed.

(** C10. Constructed from an array, a [SimpleMappedResource] has as
    [arrayIDs()] the distinct ids of the array in the order of their
    first occurrence, and as [ids()] a set of exactly those ids (in that
    order); constructed from a [Set], it has as [arrayIDs()] the
    elements of the set in its iteration order. *)
Theorem SimpleMappedResource_ids a s :
  arrayIDs (constructor (OfArray a)) = firstOccurrences a
  ∧ NoDup (arrayIDs (constructor (OfArray a)))
  ∧ (∀ x, x ∈ arrayIDs (constructor (OfArray a)) ↔ x ∈ a)
  ∧ JSSet.to_array (ids (constructor (OfArray a))) = firstOccurrences a
  ∧ (∀ x, JSSet.has x (ids (constructor (OfArray a))) = true ↔ x ∈ a)
  ∧ arrayIDs (constructor (OfSet s)) = JSSet.to_array s.
Proof.
  simpl. rewrite !JSSet_from_array.
  rewrite (firstOccurrences_NoDup _ (NoDup_firstOccurrences a)).
  split; [done|]. split; [apply NoDup_firstOccurrences|].
  split; [apply elem_of_firstOccurrences|]. split; [done|]. split; [|done].
  intros x. unfold JSSet.has. rewrite bool_decide_eq_true.
  change (JSSet.entries ?s) with (JSSet.to_array s).
  rewrite JSSet_from_array, (firstOccurrences_NoDup _ (NoDup_firstOccurrences a)).
  apply elem_of_firstOccurrences.
Qed.

End MappedResourceIds.

Example SimpleMappedResource_of_array :
  ResourceApi.arrayIDs (ResourceApi.constructor (ResourceApi.OfArray [3; 1; 3; 2; 1]%Z))
  = [3; 1; 2]%Z
  ∧ ResourceApi.ids (ResourceApi.constructor (ResourceApi.OfArray [3; 1; 3; 2; 1]%Z))
    = JSSet.mk [3; 1; 2]%Z.
Proof. split; reflexivity. Qed.

(** * Further properties of the code *)

(** ** The splitting path of the batch resolver *)

Section SplittingPath.
Import Batch.
Context {E T : Type}.

Lemma promise_all_Ok {A : Type} (ps : list (result E A)) l :
  promise_all ps = Ok l ↔ ps = map Ok l.
Proof.
  revert l. induction ps as [|[a|e] ps IH]; intros l; simpl.
  - split; [intros [= <-]; done|]. by destruct l.
  - destruct (promise_all ps) as [l'|e'] eqn:Hps.
    + split.
      * intros [= <-]. simpl. f_equal. by apply IH.
      * destruct l as [|a' l]; [done|]. simpl. intros [= -> Hl].
        apply IH in Hl. by injection Hl as ->.
    + split; [done|]. destruct l as [|a' l]; [done|]. simpl. intros [= -> Hl].
      apply IH in Hl. done.
  - split; [done|]. by destruct l.
Qed.

Lemma promise_all_Err {A : Type} (ps : list (result E A)) :
  (∃ e, promise_all ps = Err e) ↔ ∃ e, Err e ∈ ps.
Proof.
  induction ps as [|[a|e] ps IH]; simpl.
  - split; [by intros [? ?]|]. by intros [? ?%elem_of_nil].
  - destruct (promise_all ps) as [l'|e'] eqn:Hps.
    + split; [by intros [? ?]|]. intros [e [?|He]%elem_of_cons]; [done|].
      destruct (proj2 IH) as [? ?]; [by exists e|done].
    + split; [|by eexists]. intros _.
      destruct (proj1 IH) as [e He]; [by eexists|]. exists e. by right.
  - split; [|by eexists]. intros _. exists e. by left.
Qed.

(** The elements of the pairs are the values of the response. *)
Lemma map_element_imap (idSet : list Id) (valueSet : list T) :
  map element (imap (λ i e, {| element := e; id := idSet !! i |}) valueSet)
  = valueSet.
Proof.
  apply list_eq. intros i. rewrite map_fmap, list_lookup_fmap, list_lookup_imap.
  by destruct (valueSet !! i).
Qed.

(** Against the values of [f] every id is paired with its own value. *)
Lemma imap_answering (f : Id → T) (idSet : list Id) :
  imap (λ i e, {| element := e; id := idSet !! i |}) (map f idSet)
  = map (λ x, {| element := f x; id := Some x |}) idSet.
Proof.
  apply list_eq. intros i.
  rewrite list_lookup_imap, !map_fmap, !list_lookup_fmap.
  by destruct (idSet !! i).
Qed.

Lemma getIDMatchedValues_answering (f : Id → T) (ids : list Id) batchSize fuel :
  1 ≤ batchSize → length ids < fuel →
  ∃ calls,
    getIDMatchedValues (answering (E:=E) f) fuel ids batchSize
    = Some (calls, Ok (map (λ x, {| element := f x; id := Some x |}) ids))
    ∧ concat calls = ids.
Proof.
  intros Hb Hfuel.
  destruct (splitIds_slices ids batchSize fuel) as (groups & Hrun & Hcat & _);
    [lia|done|].
  exists groups. split; [|done].
  unfold getIDMatchedValues. rewrite Hrun. simpl. do 2 f_equal.
  rewrite (map_ext _ (λ idSet, Ok (map (λ x, {| element := f x; id := Some x |}) idSet)))
    by (intros idSet; by rewrite imap_answering).
  rewrite <- (map_map (map (λ x, {| element := f x; id := Some x |})) Ok).
  rewrite promise_all_resolved. simpl. by rewrite <- concat_map, Hcat.
Qed.

(** X1. With a batch size of at least [1] and a requester that answers
    every id with its value, [getRawValues] resolves to the values of the
    ids in the order of the ids, whatever the batch size, and the id lists
    it requested are the id list cut in pieces. *)
Theorem getRawValues_answering (f : Id → T) (ids : list Id) batchSize fuel :
  1 ≤ batchSize → length ids < fuel →
  ∃ calls,
    getRawValues (answering (E:=E) f) fuel ids batchSize
    = Some (calls, Ok (map f ids))
    ∧ concat calls = ids.
Proof.
  intros Hb Hfuel.
  destruct (getIDMatchedValues_answering f ids batchSize fuel Hb Hfuel)
    as (calls & Hrun & Hcat).
  exists calls. split; [|done]. unfold getRawValues. rewrite Hrun. simpl.
  by rewrite map_map.
Qed.

(** X2. With a batch size of at least [1], [getIDMatchedValues] calls the
    requester on every group, rejects exactly when the request of some
    group rejects, and when it resolves, the elements of its pairs are the
    responses of the groups one after the other, in the order of the
    groups. *)
Theorem getIDMatchedValues_settles (requester : list Id → result E (list T))
    (ids : list Id) batchSize fuel :
  1 ≤ batchSize → length ids < fuel →
  ∃ groups r,
    getIDMatchedValues requester fuel ids batchSize = Some (groups, r)
    ∧ concat groups = ids
    ∧ ((∃ e, r = Err e) ↔ ∃ g e, g ∈ groups ∧ requester g = Err e)
    ∧ ∀ pairs, r = Ok pairs →
        ∃ responses, Forall2 (λ g vs, requester g = Ok vs) groups responses
                   ∧ map element pairs = concat responses.
Proof.
  intros Hb Hfuel.
  destruct (splitIds_slices ids batchSize fuel) as (groups & Hrun & Hcat & _);
    [lia|done|].
  unfold getIDMatchedValues. rewrite Hrun. simpl. eexists _, _.
  split; [reflexivity|]. split; [done|].
  set (promises := map _ groups).
  assert (Hps : ∀ e, Err e ∈ promises ↔ ∃ g, g ∈ groups ∧ requester g = Err e).
  { intros e. unfold promises. rewrite map_fmap, list_elem_of_fmap. split.
    - intros (g & Hg & Hin). exists g. split; [done|].
      destruct (requester g); simpl in Hg; congruence.
    - intros (g & Hin & Hg). exists g. split; [|done]. by rewrite Hg. }
  split.
  - destruct (promise_all promises) as [l|e] eqn:Hall; simpl.
    + split; [by intros [? ?]|]. intros (g & e & Hg & He).
      destruct (proj2 (promise_all_Err promises)) as [? ?]; [|congruence].
      exists e. apply Hps. by exists g.
    + split; [|by eexists]. intros _.
      destruct (proj1 (promise_all_Err promises)) as [e' He']; [by eexists|].
      apply Hps in He' as (g & ? & ?). by exists g, e'.
  - intros pairs. destruct (promise_all promises) as [l|e] eqn:Hall; simpl; [|done].
    intros [= <-]. apply promise_all_Ok in Hall. unfold promises in Hall.
    clear Hps promises Hrun Hcat. revert l Hall.
    induction groups as [|g groups IH]; intros l Hall.
    + destruct l; [|done]. by exists [].
    + destruct l as [|vs l]; [done|]. simpl in Hall. injection Hall as Hg Hall.
      destruct (IH l Hall) as (responses & Hresp & Hcat).
      destruct (requester g) as [valueSet|e] eqn:Hreq; simpl in Hg; [|done].
      injection Hg as <-. exists (valueSet :: responses). split; [by constructor|].
      simpl. rewrite map_app, Hcat, map_element_imap. done.
Qed.

(** X3. With a batch size of at least [1], a requester that answers every
    id with its value and a resolver that pairs an element with its matched
    id, [getBatchedValues] resolves to a map that binds every id of [ids]
    to its value and has no other key; ids that occur more than once in
    [ids] do not matter. *)
Theorem getBatchedValues_answering (f : Id → T) (ids : list Id) batchSize fuel
    (resolver : T → option Id → Id * T) :
  1 ≤ batchSize → length ids < fuel →
  (∀ e x, resolver e (Some x) = (x, e)) →
  ∃ calls map,
    getBatchedValues (answering (E:=E) f) fuel ids resolver batchSize
    = Some (calls, Ok map)
    ∧ ∀ x, map !! x = if decide (x ∈ ids) then Some (f x) else None.
Proof.
  intros Hb Hfuel Hres.
  destruct (getIDMatchedValues_answering f ids batchSize fuel Hb Hfuel)
    as (calls & Hrun & Hcat).
  unfold getBatchedValues. rewrite Hrun. simpl. eexists _, _.
  split; [reflexivity|]. clear Hrun Hcat Hfuel.
  assert (Hfold : ∀ m : gmap Z T, ∀ x,
    foldl (λ map n, let tuple := resolver (element n) (id n) in
                    <[tuple.1 := tuple.2]> map) m
      (map (λ x, {| element := f x; id := Some x |}) ids) !! x
    = if decide (x ∈ ids) then Some (f x) else m !! x).
  { induction ids as [|a ids IH]; intros m x; simpl.
    - destruct (decide (x ∈ [])) as [H|H]; [by apply elem_of_nil in H|done].
    - rewrite IH, Hres. simpl. destruct (decide (x ∈ ids)) as [Hin|Hout].
      + rewrite decide_True by (by right). done.
      + destruct (decide (a = x)) as [->|Hne].
        * rewrite lookup_insert_eq, decide_True by (by left). done.
        * rewrite lookup_insert_ne by done.
          rewrite decide_False; [done|]. intros [?|?]%elem_of_cons; congruence. }
  intros x. rewrite Hfold. by destruct (decide (x ∈ ids)).
Qed.

End SplittingPath.

(** X1, at an instance: five ids doubled, in batches of two. *)
Lemma getRawValues_answering_witness :
  1 ≤ 2 ∧ length [5; 7; 5; 9; 11]%Z < 6 ∧
  ∃ calls,
    Batch.getRawValues (answering (E:=unit) (λ x, 2 * x)%Z) 6 [5; 7; 5; 9; 11]%Z 2
    = Some (calls, Ok (map (λ x, 2 * x)%Z [5; 7; 5; 9; 11]%Z))
    ∧ concat calls = [5; 7; 5; 9; 11]%Z.
Proof.
  split; [lia|]. split; [simpl; lia|].
  apply (getRawValues_answering (λ x, 2 * x)%Z [5; 7; 5; 9; 11]%Z 2 6); simpl; lia.
Defined.

(** X2, at an instance: a requester that rejects the id [9]. *)
Lemma getIDMatchedValues_settles_witness :
  let requester := λ ids : list Id,
    if bool_decide (9%Z ∈ ids) then Err 9%Z else Ok ids in
  1 ≤ 2 ∧ length [5; 7; 5; 9; 11]%Z < 6 ∧
  ∃ groups r,
    Batch.getIDMatchedValues requester 6 [5; 7; 5; 9; 11]%Z 2 = Some (groups, r)
    ∧ concat groups = [5; 7; 5; 9; 11]%Z
    ∧ ((∃ e, r = Err e) ↔ ∃ g e, g ∈ groups ∧ requester g = Err e)
    ∧ ∀ pairs, r = Ok pairs →
        ∃ responses, Forall2 (λ g vs, requester g = Ok vs) groups responses
                   ∧ map Batch.element pairs = concat responses.
Proof.
  intros requester. split; [lia|]. split; [simpl; lia|].
  apply (getIDMatchedValues_settles requester [5; 7; 5; 9; 11]%Z 2 6); simpl; lia.
Defined.

(** X3, at an instance. *)
Lemma getBatchedValues_answering_witness :
  1 ≤ 2 ∧ length [5; 7; 5; 9; 11]%Z < 6 ∧
  (∀ e x : Id, (λ e i, (default 0%Z i, e)) e (Some x) = (x, e)) ∧
  ∃ calls map,
    Batch.getBatchedValues (answering (E:=unit) (λ x, 2 * x)%Z) 6
      [5; 7; 5; 9; 11]%Z (λ e i, (default 0%Z i, e)) 2
    = Some (calls, Ok map)
    ∧ ∀ x, map !! x = if decide (x ∈ [5; 7; 5; 9; 11]%Z) then Some (2 * x)%Z else None.
Proof.
  split; [lia|]. split; [simpl; lia|]. split; [reflexivity|].
  apply (getBatchedValues_answering (λ x, 2 * x)%Z [5; 7; 5; 9; 11]%Z 2 6);
    [lia|simpl; lia|reflexivity].
Defined.

(** ** The streaming path of the batch resolver *)

Section StreamingPath.
Import Batch.
Context {E T P : Type}.
Variable requester : list Id → result E (list T).
Variable resolver : T → option Id → P.

Lemma JSSet_add_entries x s :
  JSSet.entries (JSSet.add x s)
  = if decide (x ∈ JSSet.entries s) then JSSet.entries s
    else JSSet.entries s ++ [x].
Proof.
  unfold JSSet.add, JSSet.has.
  destruct (bool_decide_reflect (x ∈ JSSet.entries s));
    [rewrite decide_True by done|rewrite decide_False by done]; done.
Qed.

Lemma JSSet_add_NoDup x s :
  NoDup (JSSet.entries s) → NoDup (JSSet.entries (JSSet.add x s)).
Proof.
  intros Hnd. rewrite JSSet_add_entries. case_decide; [done|].
  apply NoDup_app. split; [done|]. split; [|apply NoDup_singleton].
  intros y Hy ->%list_elem_of_singleton. done.
Qed.

Lemma JSSet_add_nonempty x s : JSSet.entries (JSSet.add x s) ≠ [].
Proof.
  rewrite JSSet_add_entries. case_decide as Hx.
  - intros Hnil. rewrite Hnil in Hx. by apply elem_of_nil in Hx.
  - by destruct (JSSet.entries s).
Qed.

Lemma getIteratedValues_from_requests_NoDup batchSize ids :
  ∀ idBatch, NoDup (JSSet.entries idBatch) →
    Forall (λ call, call.1 ≠ [] ∧ NoDup call.1)
      (requests (getIteratedValues_from requester ids resolver batchSize idBatch).1).
Proof.
  induction ids as [|x ids IH]; intros idBatch Hnd; simpl.
  - destruct (Nat.ltb_spec 0 (JSSet.size idBatch)) as [Hpos|Hzero]; [|by constructor].
    destruct (requests_flush requester resolver idBatch ([], Finished))
      as (r & rest & -> & Hrest).
    apply Forall_cons. split; [|by destruct Hrest as [->| ->]; simpl].
    simpl. split; [|exact Hnd].
    unfold JSSet.size, JSSet.to_array in *.
    destruct (JSSet.entries idBatch); [simpl in Hpos; lia|done].
  - pose proof (JSSet_add_NoDup x idBatch Hnd) as Hnd'.
    pose proof (JSSet_add_nonempty x idBatch) as Hne.
    destruct (batchSize <=? JSSet.size (JSSet.add x idBatch)); [|by apply IH].
    destruct (requests_flush requester resolver (JSSet.add x idBatch)
      (getIteratedValues_from requester ids resolver batchSize JSSet.empty))
      as (r & rest & -> & Hrest).
    apply Forall_cons. split; [by split|]. destruct Hrest as [->| ->]; [constructor|].
    apply IH. simpl. constructor.
Qed.

(** X4. Whatever the batch size, the requester and the ids delivered,
    [getIteratedValues] never calls the requester with an empty id list or
    with an id list that holds an id twice. *)
Theorem getIteratedValues_requests_NoDup (ids : list Id) (batchSize : nat) :
  Forall (λ call, call.1 ≠ [] ∧ NoDup call.1)
    (requests (getIteratedValues requester ids resolver batchSize).1).
Proof.
  apply getIteratedValues_from_requests_NoDup. simpl. constructor.
Qed.





End StreamingPath.

(** ** The two paths on ids without duplicates *)

Section BothPaths.
Import Batch.
Context {E T P : Type}.
Variable f : Id → T.
Variable resolver : T → option Id → P.

Lemma slice_app_drop {A : Type} (p q : list A) a b :
  slice (p ++ q) (length p + a) (length p + b) = slice q a b.
Proof.
  unfold slice. rewrite take_app, take_ge by lia.
  replace (length p + b - length p) with b by lia.
  rewrite drop_app, drop_ge by lia.
  replace (length p + a - length p) with a by lia. done.
Qed.

Lemma imap_answering_resolver (l : list Id) :
  imap (λ i e, resolver e (l !! i)) (map f l)
  = map (λ x, resolver (f x) (Some x)) l.
Proof.
  apply list_eq. intros i.
  rewrite list_lookup_imap, !map_fmap, !list_lookup_fmap.
  by destruct (l !! i).
Qed.

(** What a flush adds to a run when the requester answers with [f]. *)
Lemma flush_answering idBatch k :
  let run := flush (answering (E:=E) f) resolver idBatch k in
  run.2 = k.2
  ∧ yields run.1
    = map (λ x, resolver (f x) (Some x)) (JSSet.entries idBatch) ++ yields k.1
  ∧ map fst (requests run.1) = JSSet.entries idBatch :: map fst (requests k.1).
Proof.
  unfold flush, answering, after, JSSet.to_array. simpl.
  rewrite yields_app, yields_yields, requests_app, requests_yields.
  by rewrite imap_answering_resolver.
Qed.

(** With ids that are all different the batches are the consecutive
    slices of the ids: those still in [idBatch], then those to come. *)
Lemma getIteratedValues_from_slices batchSize (Hb : 1 ≤ batchSize) ids :
  ∀ idBatch,
    NoDup (JSSet.entries idBatch ++ ids) → JSSet.size idBatch < batchSize →
    let run := getIteratedValues_from (answering (E:=E) f) ids resolver batchSize
                 idBatch in
    let l := JSSet.entries idBatch ++ ids in
    run.2 = Finished
    ∧ yields run.1 = map (λ x, resolver (f x) (Some x)) l
    ∧ length (map fst (requests run.1)) = (length l + batchSize - 1) / batchSize
    ∧ ∀ k, k < length (map fst (requests run.1)) →
        map fst (requests run.1) !! k
        = Some (slice l (k * batchSize) (k * batchSize + batchSize)).
Proof.
  induction ids as [|x ids IH]; intros idBatch Hnd Hsize; simpl.
  - rewrite app_nil_r. unfold JSSet.size in *.
    destruct (Nat.ltb_spec 0 (length (JSSet.entries idBatch))) as [Hpos|Hzero].
    + destruct (flush_answering idBatch ([], Finished)) as (-> & -> & ->). simpl.
      rewrite app_nil_r. split; [done|]. split; [done|]. split.
      * apply (Nat.div_unique _ _ 1 (length (JSSet.entries idBatch) - 1)); lia.
      * intros [|k] Hk; [|simpl in Hk; lia]. simpl. f_equal.
        unfold slice. rewrite take_ge by lia. done.
    + destruct (JSSet.entries idBatch); [|simpl in Hzero; lia]. simpl.
      split; [done|]. split; [done|]. split; [|lia].
      symmetry. apply Nat.div_small. lia.
  - assert (Hx : x ∉ JSSet.entries idBatch).
    { apply NoDup_app in Hnd as (_ & Hdisj & _). intros Hin.
      apply (Hdisj x Hin). by left. }
    assert (Hadd : JSSet.entries (JSSet.add x idBatch) = JSSet.entries idBatch ++ [x]).
    { unfold JSSet.add, JSSet.has. by rewrite bool_decide_eq_false_2. }
    assert (Hl : JSSet.entries idBatch ++ x :: ids
                 = JSSet.entries (JSSet.add x idBatch) ++ ids)
      by (rewrite Hadd, <- app_assoc; done).
    rewrite Hl. unfold JSSet.size in *.
    destruct (Nat.leb_spec batchSize (length (JSSet.entries (JSSet.add x idBatch))))
      as [Hfull|Hroom].
    + assert (Hlen : length (JSSet.entries (JSSet.add x idBatch)) = batchSize)
        by (rewrite Hadd, length_app in *; simpl in *; lia).
      destruct (flush_answering (JSSet.add x idBatch)
        (getIteratedValues_from (answering (E:=E) f) ids resolver batchSize
           JSSet.empty)) as (-> & -> & ->).
      destruct (IH JSSet.empty) as (Hfin & Hy & Hn & Hk).
      { simpl. rewrite Hl in Hnd. by apply NoDup_app in Hnd as (_ & _ & ?). }
      { simpl. lia. }
      simpl in Hy, Hn, Hk. split; [done|]. split; [by rewrite Hy, map_app|].
      split.
      * simpl. rewrite Hn, length_app, Hlen.
        replace (batchSize + length ids + batchSize - 1)
          with (length ids + batchSize - 1 + 1 * batchSize) by lia.
        rewrite Nat.div_add by lia. lia.
      * intros [|k] Hlt; simpl.
        -- f_equal. unfold slice. simpl.
           by rewrite take_app_length' by done.
        -- simpl in Hlt. rewrite Hk by lia. f_equal.
           rewrite <- (slice_app_drop (JSSet.entries (JSSet.add x idBatch)) ids
                         (k * batchSize) (k * batchSize + batchSize)).
           rewrite Hlen. f_equal; lia.
    + apply IH; [by rewrite <- Hl|lia].
Qed.

(** X6. On ids that are all different, with a batch size of at least [1]
    and a requester that answers every id with its value, the streaming
    path requests the same id lists, in the same order, as the splitting
    path: the groups of [splitIds]. It yields the resolved value of every
    id once, in the order of the ids, and returns. *)
Theorem getIteratedValues_splitIds (ids : list Id) (batchSize fuel : nat) :
  NoDup ids → 1 ≤ batchSize → length ids < fuel →
  let run := getIteratedValues (answering (E:=E) f) ids resolver batchSize in
  splitIds fuel ids batchSize = Some (map fst (requests run.1))
  ∧ yields run.1 = map (λ x, resolver (f x) (Some x)) ids
  ∧ run.2 = Finished.
Proof.
  intros Hnd Hb Hfuel.
  destruct (getIteratedValues_from_slices batchSize Hb ids JSSet.empty)
    as (Hfin & Hy & Hn & Hk); [done|unfold JSSet.size; simpl; lia|].
  simpl in Hy, Hn, Hk.
  destruct (splitIds_slices ids batchSize fuel) as (groups & Hrun & _ & Hgn & Hgk);
    [lia|done|].
  split; [|by split]. rewrite Hrun. f_equal. apply list_eq. intros k.
  destruct (decide (k < length groups)) as [Hlt|Hge].
  - rewrite Hgk by done. symmetry. apply Hk.
    unfold getIteratedValues. rewrite Hn, <- Hgn. done.
  - rewrite !lookup_ge_None_2; [done| |lia].
    unfold getIteratedValues. rewrite Hn, <- Hgn. lia.
Qed.

(** X7. With a batch size of [0] the two paths part: the loop of
    [splitIds] never ends on a non-empty id list, whereas the streaming
    path requests every id on its own, one request an id, when the
    requests resolve. *)
Theorem zero_batch_size (x : Id) (ids : list Id) (fuel : nat)
    (respond : list Id → list T) :
  splitIds fuel (x :: ids) 0 = None
  ∧ map fst (requests (getIteratedValues (E:=E) (λ ids, Ok (respond ids))
                         (x :: ids) resolver 0).1)
    = map (λ x, [x]) (x :: ids).
Proof.
  split.
  - unfold splitIds. generalize (@nil (list Id)).
    induction fuel as [|fuel IH]; intros groups; [done|]. simpl. apply IH.
  - unfold getIteratedValues. generalize (x :: ids). clear x ids.
    intros ids. induction ids as [|x ids IH]; [done|].
    simpl. unfold flush, after. simpl.
    rewrite requests_app, requests_yields. simpl. by rewrite IH.
Qed.

End BothPaths.

(** X6, at an instance: seven ids in batches of three. *)
Lemma getIteratedValues_splitIds_witness :
  NoDup [1; 2; 3; 4; 5; 6; 7]%Z ∧ 1 ≤ 3 ∧ length [1; 2; 3; 4; 5; 6; 7]%Z < 8 ∧
  let run := Batch.getIteratedValues (answering (E:=unit) (λ x, 2 * x)%Z)
               [1; 2; 3; 4; 5; 6; 7]%Z (λ e i, (i, e)) 3 in
  Batch.splitIds 8 [1; 2; 3; 4; 5; 6; 7]%Z 3 = Some (map fst (requests run.1))
  ∧ yields run.1 = map (λ x, (Some x, 2 * x)%Z) [1; 2; 3; 4; 5; 6; 7]%Z
  ∧ run.2 = Finished.
Proof.
  assert (Hnd : NoDup [1; 2; 3; 4; 5; 6; 7]%Z)
    by (repeat (apply NoDup_cons_2; [set_solver|]); apply NoDup_nil_2).
  split; [exact Hnd|]. split; [lia|]. split; [simpl; lia|].
  apply (getIteratedValues_splitIds (E:=unit) (λ x, 2 * x)%Z (λ e i, (i, e))
           [1; 2; 3; 4; 5; 6; 7]%Z 3 8 Hnd); simpl; lia.
Defined.

(** ** The resolution helpers against each other *)

Section Resolution.
Import ResourceApi.
Context {T : Type}.
Variable resolver : T → Id.
Implicit Types (resources : list T) (ids : list Id) (map : gmap Z T).

Lemma FirstMatch_unique resources id v w :
  FirstMatch resolver resources id v → FirstMatch resolver resources id w → v = w.
Proof.
  intros (i & Hi & Hri & Hmini) (j & Hj & Hrj & Hminj).
  destruct (Nat.lt_trichotomy i j) as [Hlt|[->|Hlt]].
  - destruct (Hminj i v Hlt Hi Hri).
  - congruence.
  - destruct (Hmini j w Hlt Hj Hrj).
Qed.

Lemma filterArray_cases resources id :
  (∃ v, filterArray resolver resources id = Ok v ∧ FirstMatch resolver resources id v)
  ∨ (filterArray resolver resources id = Err (NotFound id)
     ∧ ¬ Matched resolver resources id).
Proof.
  induction resources as [|e resources IH]; simpl.
  - right. split; [done|]. intros (v & Hv & _). by apply elem_of_nil in Hv.
  - destruct (bool_decide_reflect (resolver e = id)) as [He|He].
    + left. exists e. split; [done|]. exists 0. repeat split; [done|]. lia.
    + destruct IH as [(v & -> & (i & Hi & Hr & Hmin))|[-> Hno]].
      * left. exists v. split; [done|]. exists (S i). repeat split; [done..|].
        intros [|j] w Hj Hw; simpl in Hw; [congruence|]. apply (Hmin j); [lia|done].
      * right. split; [done|]. intros (v & Hv & Hr).
        apply elem_of_cons in Hv as [->|Hv]; [done|]. apply Hno. by exists v.
Qed.

Lemma filterArray_FirstMatch resources id v :
  FirstMatch resolver resources id v → filterArray resolver resources id = Ok v.
Proof.
  intros Hv. destruct (filterArray_cases resources id) as [(w & -> & Hw)|[_ Hno]].
  - f_equal. by eapply FirstMatch_unique.
  - destruct Hno. by eapply FirstMatch_Matched.
Qed.

Lemma filterArray_unmatched resources id :
  ¬ Matched resolver resources id →
  filterArray resolver resources id = Err (NotFound id).
Proof.
  intros Hno. destruct (filterArray_cases resources id) as [(w & _ & Hw)|[-> _]];
    [|done]. destruct Hno. by eapply FirstMatch_Matched.
Qed.

(** X8. [filterArray] resolves to an element exactly when it is the first
    element of the array that resolves to the id, and it throws exactly
    when no element resolves to the id; the error is then the NotFound
    error of that id and no other. *)
Theorem filterArray_first_match resources id :
  (∀ v, filterArray resolver resources id = Ok v
        ↔ FirstMatch resolver resources id v)
  ∧ (filterArray resolver resources id = Err (NotFound id)
     ↔ ¬ Matched resolver resources id)
  ∧ ∀ err, filterArray resolver resources id = Err err → err = NotFound id.
Proof.
  destruct (filterArray_cases resources id) as [(v & Hrun & Hfirst)|[Hrun Hno]];
    rewrite Hrun; split; [|split| |split].
  - intros w. split; [by intros [= <-]|]. intros Hw. f_equal.
    by eapply FirstMatch_unique.
  - split; [done|]. intros Hno. destruct Hno. by eapply FirstMatch_Matched.
  - done.
  - intros w. split; [done|]. intros Hw. destruct Hno. by eapply FirstMatch_Matched.
  - done.
  - by intros err [= <-].
Qed.

(** Every id of [ids] has a match, or there is a first one without. *)
Lemma Matched_all_or_first resources ids :
  (∀ id, id ∈ ids → Matched resolver resources id)
  ∨ ∃ pre id post, ids = pre ++ id :: post
      ∧ (∀ x, x ∈ pre → Matched resolver resources x)
      ∧ ¬ Matched resolver resources id.
Proof.
  induction ids as [|x ids IH].
  - left. by intros id ?%elem_of_nil.
  - destruct (filterArray_cases resources x) as [(v & _ & Hfirst)|[_ Hno]].
    + apply FirstMatch_Matched in Hfirst.
      destruct IH as [Hall|(pre & id & post & -> & Hpre & Hno)].
      * left. intros id [->|Hid]%elem_of_cons; [done|by apply Hall].
      * right. exists (x :: pre), id, post. split; [done|]. split; [|done].
        intros y [->|Hy]%elem_of_cons; [done|by apply Hpre].
    + right. exists [], x, ids. split; [done|]. split; [|done].
      by intros y ?%elem_of_nil.
Qed.

(** X9. [filterArrayToMap] is [filterArray] id by id: when it resolves,
    its map binds every requested id to what [filterArray] resolves to for
    that id and has no other key; when it throws, its error is the one
    [filterArray] throws for the first requested id it throws for. *)
Theorem filterArrayToMap_filterArray resources ids :
  (∀ map, filterArrayToMap resolver resources ids = Ok map →
     (∀ id, id ∈ ids → ∃ v, filterArray resolver resources id = Ok v
                          ∧ map !! id = Some v)
     ∧ ∀ id, id ∉ ids → map !! id = None)
  ∧ (∀ err, filterArrayToMap resolver resources ids = Err err →
       ∃ pre id post, ids = pre ++ id :: post
         ∧ filterArray resolver resources id = Err err
         ∧ ∀ x, x ∈ pre → ∃ v, filterArray resolver resources x = Ok v).
Proof.
  destruct (Matched_all_or_first resources ids)
    as [Hall|(pre & id & post & -> & Hpre & Hno)].
  - destruct (filterArrayToMap_resolved resolver resources ids Hall)
      as (map & -> & Hdom & Hval).
    split; [|done]. intros ? [= <-]. split.
    + intros id Hid. destruct (Hval id Hid) as (v & Hv & Hfirst).
      exists v. split; [|done]. by apply filterArray_FirstMatch.
    + intros id Hid. apply not_elem_of_dom. rewrite Hdom. set_solver.
  - rewrite (filterArrayToMap_rejected resolver resources pre id post Hpre Hno).
    split; [done|]. intros ? [= <-]. exists pre, id, post. split; [done|].
    split; [by apply filterArray_unmatched|]. intros x Hx.
    destruct (filterArray_cases resources x) as [(v & ? & _)|[_ Hnox]];
      [by exists v|]. destruct Hnox. by apply Hpre.
Qed.

Lemma filterIterated_from_spec resources id :
  ∀ n0, ∃ k,
    k ≤ length resources
    ∧ (filterIterated_from resolver resources id n0).1 = n0 + k
    ∧ (filterIterated_from resolver resources id n0).2
      = filterArray resolver resources id
    ∧ (∀ v, filterArray resolver resources id = Ok v →
         1 ≤ k ∧ resources !! (k - 1) = Some v
         ∧ ∀ rest, filterIterated_from resolver (take k resources ++ rest) id n0
                   = (n0 + k, Ok v))
    ∧ (∀ err, filterArray resolver resources id = Err err → k = length resources).
Proof.
  induction resources as [|e resources IH]; intros n0; simpl.
  - exists 0. split; [done|]. split; [lia|]. split; [done|]. split; [done|]. done.
  - destruct (bool_decide_reflect (resolver e = id)) as [He|He].
    + exists 1. split; [lia|]. split; [simpl; lia|]. split; [done|]. split; [|done].
      intros v [= <-]. split; [lia|]. split; [done|]. intros rest. simpl.
      rewrite ?take_0. simpl. rewrite bool_decide_eq_true_2 by done. f_equal. lia.
    + destruct (IH (S n0)) as (k & Hk & Hn & Hr & Hok & Herr).
      exists (S k). split; [lia|]. split; [rewrite Hn; lia|]. split; [done|]. split.
      * intros v Hv. destruct (Hok v Hv) as (H1 & Hlook & Hrest).
        split; [lia|]. split.
        -- destruct k; [lia|]. simpl in *. by rewrite Nat.sub_0_r in Hlook.
        -- intros rest. simpl. rewrite bool_decide_eq_false_2 by done.
           rewrite Hrest. f_equal. lia.
      * intros err Herr'. f_equal. by eapply Herr.
Qed.

(** X10. [filterIterated] settles as [filterArray] does on the elements
    of the sequence; it takes elements from the sequence up to and with
    the first match and no element after it (what follows in the sequence
    has no influence), and takes the whole sequence when it throws. *)
Theorem filterIterated_filterArray resources id :
  let run := filterIterated resolver resources id in
  run.2 = filterArray resolver resources id
  ∧ run.1 ≤ length resources
  ∧ (∀ v, run.2 = Ok v →
       1 ≤ run.1 ∧ resources !! (run.1 - 1) = Some v
       ∧ ∀ rest, filterIterated resolver (take run.1 resources ++ rest) id = run)
  ∧ (∀ err, run.2 = Err err → run.1 = length resources).
Proof.
  unfold filterIterated.
  destruct (filterIterated_from_spec resources id 0) as (k & Hk & Hn & Hr & Hok & Herr).
  simpl in *. rewrite Hn, Hr. split; [done|]. split; [done|]. split.
  - intros v Hv. destruct (Hok v Hv) as (H1 & Hlook & Hrest).
    split; [done|]. split; [done|]. intros rest. rewrite Hrest.
    destruct (filterIterated_from resolver resources id 0) as [n r] eqn:Hrun.
    simpl in *. by rewrite Hn, Hr, Hv.
  - intros err Herr'. by eapply Herr.
Qed.

Lemma Matched_take resources n id :
  Matched resolver (take n resources) id → Matched resolver resources id.
Proof.
  intros (v & Hv & Hr). exists v. split; [|done].
  apply elem_of_take in Hv as (i & Hi & _). by eapply list_elem_of_lookup_2.
Qed.

(** The first id without a match is determined by the id list. *)
Lemma first_unmatched_unique (Q : Id → Prop) pre x post pre' x' post' :
  pre ++ x :: post = pre' ++ x' :: post' →
  (∀ y, y ∈ pre → Q y) → ¬ Q x → (∀ y, y ∈ pre' → Q y) → ¬ Q x' → x = x'.
Proof.
  revert pre'. induction pre as [|a pre IH]; intros [|a' pre'] Heq Hpre Hx Hpre' Hx';
    simpl in Heq.
  - congruence.
  - injection Heq as -> _. destruct Hx. apply Hpre'. by left.
  - injection Heq as -> _. destruct Hx'. apply Hpre. by left.
  - injection Heq as -> Heq. apply (IH pre' Heq); [|done| |done].
    + intros y Hy. apply Hpre. by right.
    + intros y Hy. apply Hpre'. by right.
Qed.

(** How [filterIteratedToMap] settles for ids without duplicates. *)
Lemma filterIteratedToMap_outcome resources ids :
  NoDup ids →
  (Complete resolver resources ids →
     ∃ n map, filterIteratedToMap resolver resources ids = (n, Ok map)
       ∧ dom map = list_to_set ids
       ∧ ∀ id, id ∈ ids → ∃ e, map !! id = Some e ∧ e ∈ resources
                                ∧ resolver e = id)
  ∧ (∀ pre id post, ids = pre ++ id :: post →
       (∀ x, x ∈ pre → Matched resolver resources x) →
       ¬ Matched resolver resources id →
       filterIteratedToMap resolver resources ids
       = (length resources, Err (NotFound id))).
Proof.
  intros Hnd.
  destruct (collect_spec resolver ids resources ∅ 0) as (k & Hk & Hrun & Hmin & Hend).
  simpl in Hrun. unfold filterIteratedToMap. rewrite Hrun.
  pose proof (gather_size resolver ids (take k resources) Hnd) as Hsize.
  split.
  - intros Hall.
    assert (Heq : size (gather resolver ids (take k resources) ∅) = length ids).
    { destruct Hend as [[_ ?]|[-> _]]; [done|]. rewrite take_ge by lia.
      by apply gather_size. }
    rewrite bool_decide_eq_false_2 by (intros ?; done).
    eexists _, _. split; [reflexivity|]. split.
    + apply set_eq. intros id. rewrite gather_dom, elem_of_list_to_set.
      split; [by intros [? _]|]. intros Hid. split; [done|]. by apply Hsize.
    + intros id Hid. destruct (gather_lookup resolver ids (take k resources) id)
        as [Hnone|(e & He & Hin & Hr & _)].
      * assert (is_Some (gather resolver ids (take k resources) ∅ !! id)) as [? ?];
          [|congruence]. apply gather_matched; [done|]. by apply Hsize.
      * exists e. split; [done|]. split; [|done].
        apply elem_of_take in Hin as (i & Hi & _). by eapply list_elem_of_lookup_2.
  - intros pre id post -> Hpre Hno.
    assert (Hne : size (gather resolver (pre ++ id :: post) (take k resources) ∅)
                  ≠ length (pre ++ id :: post)).
    { intros Heq. apply Hsize in Heq. destruct Hno.
      apply (Matched_take _ k). apply Heq. set_solver. }
    assert (k = length resources) as -> by (destruct Hend as [[_ ?]|[? _]]; done).
    rewrite take_ge in * by lia. rewrite bool_decide_eq_true_2 by done.
    pose proof (firstMissing_spec (pre ++ id :: post)
                  (gather resolver (pre ++ id :: post) resources ∅)) as Hfm.
    destruct (firstMissing _ _) as [id'|].
    + destruct Hfm as (pre' & post' & Heq & Hpre' & Hid').
      do 3 f_equal. symmetry.
      apply (first_unmatched_unique (Matched resolver resources)
               pre id post pre' id' post' Heq Hpre Hno).
      * intros y Hy.
        assert (y ∈ dom (gather resolver (pre ++ id :: post) resources ∅))
          as [_ ?]%gather_dom; [|done]. apply elem_of_dom. by apply Hpre'.
      * intros Hm.
        assert (is_Some (gather resolver (pre ++ id :: post) resources ∅ !! id'))
          as [? ?]; [|congruence].
        apply gather_matched; [|done]. rewrite Heq. set_solver.
    + destruct Hno.
      assert (id ∈ dom (gather resolver (pre ++ id :: post) resources ∅))
        as [_ ?]%gather_dom; [|done]. apply elem_of_dom. apply Hfm. set_solver.
Qed.

(** X11. For requested ids without duplicates [filterIteratedToMap] and
    [filterArrayToMap] settle alike on the same elements: one throws the
    NotFound error of an id exactly when the other does, and when no two
    elements resolve to the same id, the promise of the one is the result
    of the other, map for map. *)
Theorem filterIteratedToMap_filterArrayToMap resources ids :
  NoDup ids →
  (∀ id, (filterIteratedToMap resolver resources ids).2 = Err (NotFound id)
         ↔ filterArrayToMap resolver resources ids = Err (NotFound id))
  ∧ ((∃ map, (filterIteratedToMap resolver resources ids).2 = Ok map)
     ↔ ∃ map, filterArrayToMap resolver resources ids = Ok map)
  ∧ (NoDup (map resolver resources) →
     (filterIteratedToMap resolver resources ids).2
     = filterArrayToMap resolver resources ids).
Proof.
  intros Hnd. destruct (filterIteratedToMap_outcome resources ids Hnd) as [Hok Herr].
  destruct (Matched_all_or_first resources ids)
    as [Hall|(pre & id & post & -> & Hpre & Hno)].
  - destruct (Hok Hall) as (n & map2 & -> & Hdom2 & Hval2).
    destruct (filterArrayToMap_resolved resolver resources ids Hall)
      as (map1 & -> & Hdom1 & Hval1). simpl.
    split; [done|]. split; [split; by eexists|].
    intros Huniq. f_equal. apply map_eq. intros id.
    destruct (decide (id ∈ ids)) as [Hid|Hid].
    + destruct (Hval2 id Hid) as (e & -> & He & Hre).
      destruct (Hval1 id Hid) as (v & -> & (i & Hi & Hrv & _)).
      f_equal. apply list_elem_of_lookup in He as [j Hj].
      assert (i = j) as ->; [|congruence].
      eapply (NoDup_lookup (map resolver resources)); [done|..];
        rewrite map_fmap, list_lookup_fmap.
      * rewrite Hi. simpl. by rewrite Hrv.
      * rewrite Hj. simpl. by rewrite Hre.
    + transitivity (@None T); [|symmetry]; apply not_elem_of_dom;
        [rewrite Hdom2|rewrite Hdom1]; set_solver.
  - rewrite (Herr pre id post eq_refl Hpre Hno).
    rewrite (filterArrayToMap_rejected resolver resources pre id post Hpre Hno).
    simpl. split; [done|]. split; [split; by intros [? ?]|done].
Qed.

End Resolution.

(** X11, at an instance: the ids [3, 1] against four elements. *)
Lemma filterIteratedToMap_filterArrayToMap_witness :
  let resources := [{| id := 1 |}; {| id := 2 |}; {| id := 3 |}; {| id := 4 |}]%Z in
  NoDup [3; 1]%Z ∧
  (∀ x, (ResourceApi.filterIteratedToMap (λ e, id e) resources [3; 1]%Z).2
        = Err (NotFound x)
        ↔ ResourceApi.filterArrayToMap (λ e, id e) resources [3; 1]%Z
          = Err (NotFound x))
  ∧ ((∃ map, (ResourceApi.filterIteratedToMap (λ e, id e) resources [3; 1]%Z).2
             = Ok map)
     ↔ ∃ map, ResourceApi.filterArrayToMap (λ e, id e) resources [3; 1]%Z = Ok map)
  ∧ (NoDup (map (λ e, id e) resources) →
     (ResourceApi.filterIteratedToMap (λ e, id e) resources [3; 1]%Z).2
     = ResourceApi.filterArrayToMap (λ e, id e) resources [3; 1]%Z).
Proof.
  intros resources.
  assert (Hnd : NoDup [3; 1]%Z)
    by (apply NoDup_cons_2; [set_solver|apply NoDup_singleton]).
  split; [exact Hnd|].
  apply (filterIteratedToMap_filterArrayToMap (λ e, id e) resources [3; 1]%Z Hnd).
Defined.

(** Where two elements resolve to the same id the two helpers differ:
    the array helper binds the first of them, the sequence helper the last
    one it took. *)
Example filterIteratedToMap_binds_last :
  let resolver := λ p : Id * Id, p.1 in
  ResourceApi.filterArrayToMap resolver [(1, 10); (1, 20); (2, 30)]%Z [1; 2]%Z
  = Ok (<[2 := (2, 30)]> (<[1 := (1, 10)]> ∅))%Z
  ∧ ResourceApi.filterIteratedToMap resolver [(1, 10); (1, 20); (2, 30)]%Z [1; 2]%Z
    = (3, Ok (<[2 := (2, 30)]> (<[1 := (1, 20)]> ∅))%Z).
Proof. split; vm_compute; reflexivity. Qed.

(** ** Loading a resource for every id *)

Section GetResource.
Import ResourceApi.
Context {E V : Type}.
Variable loader : Id → result E V.

(** What the loop of [getResource] has set after the indices below [n]. *)
Lemma getResource_loop (ids : list Id) (responses : list V) :
  map loader ids = map Ok responses →
  ∀ n, n ≤ length ids →
    ∀ x, foldl (λ map i, match ids !! i, responses !! i with
                         | Some k, Some v => <[k := v]> map
                         | _, _ => map
                         end) (∅ : gmap Z V) (seq 0 n) !! x
         = if decide (x ∈ take n ids) then
             match loader x with Ok v => Some v | Err _ => None end
           else None.
Proof.
  intros Hresp. induction n as [|n IH]; intros Hn x.
  - rewrite take_0. simpl. rewrite lookup_empty.
    destruct (decide (x ∈ [])) as [Hx|Hx]; [by apply elem_of_nil in Hx|done].
  - rewrite seq_S, foldl_app. simpl.
    destruct (lookup_lt_is_Some_2 ids n ltac:(lia)) as [k Hk].
    assert (Hv : ∃ v, responses !! n = Some v ∧ loader k = Ok v).
    { apply (f_equal (λ l, l !! n)) in Hresp.
      rewrite !map_fmap, !list_lookup_fmap, Hk in Hresp. simpl in Hresp.
      destruct (responses !! n) as [v|]; [|done]. exists v. split; [done|].
      simpl in Hresp. congruence. }
    destruct Hv as (v & Hv & Hload). rewrite Hk, Hv.
    rewrite (take_S_r _ _ _ Hk). destruct (decide (k = x)) as [->|Hne].
    + rewrite lookup_insert_eq, decide_True by set_solver. by rewrite Hload.
    + rewrite lookup_insert_ne, IH by (done || lia).
      destruct (decide (x ∈ take n ids)) as [Hin|Hout].
      * rewrite decide_True by set_solver. done.
      * rewrite decide_False; [done|]. set_solver.
Qed.

(** X12. [getResource] rejects exactly when the promise of
    [arrayIDs()] rejects, as that of a provider can, or the loader rejects
    for one of the ids; in the first case it rejects with the error of
    [arrayIDs()], whatever the loader. When the ids and the loader resolve
    for all of them, the map it resolves to binds every id to what the
    loader resolved to for it, and has no other key. *)
Theorem getResource_loads (arrayIDs : result E (list Id)) :
  ((∃ e, getResource arrayIDs loader = Err e)
   ↔ (∃ e, arrayIDs = Err e)
     ∨ ∃ ids x e, arrayIDs = Ok ids ∧ x ∈ ids ∧ loader x = Err e)
  ∧ (∀ e, arrayIDs = Err e → getResource arrayIDs loader = Err e)
  ∧ (∀ ids, arrayIDs = Ok ids → (∀ x, x ∈ ids → ∃ v, loader x = Ok v) →
     ∃ map, getResource arrayIDs loader = Ok map
          ∧ ∀ x, map !! x = if decide (x ∈ ids) then
                              match loader x with Ok v => Some v | Err _ => None end
                            else None).
Proof.
  destruct arrayIDs as [ids|e0]; simpl.
  2:{ split; [split; [intros _; left; by eexists|by eexists]|].
      split; [by intros e [= ->]|done]. }
  assert (Hps : ∀ e, Err e ∈ map loader ids ↔ ∃ x, x ∈ ids ∧ loader x = Err e).
  { intros e. rewrite map_fmap, list_elem_of_fmap. split.
    - intros (x & ? & ?). by exists x.
    - intros (x & ? & ?). by exists x. }
  split; [|split; [done|]].
  - destruct (Batch.promise_all (map loader ids)) as [l|e] eqn:Hall; simpl.
    + split; [by intros [? ?]|]. intros [[? ?]|(ids' & x & e & [= <-] & Hx & He)]; [done|].
      destruct (proj2 (promise_all_Err (map loader ids))) as [? ?]; [|congruence].
      exists e. apply Hps. by exists x.
    + split; [|by eexists]. intros _. right.
      destruct (proj1 (promise_all_Err (map loader ids))) as [e' He']; [by eexists|].
      apply Hps in He' as (x & ? & ?). by exists ids, x, e'.
  - intros ids' [= <-] Hall.
    destruct (Batch.promise_all (map loader ids)) as [responses|e] eqn:Hps'.
    + apply promise_all_Ok in Hps'. simpl. eexists. split; [reflexivity|].
      intros x. rewrite (getResource_loop ids responses Hps' (length ids)) by lia.
      by rewrite take_ge by lia.
    + destruct (proj1 (promise_all_Err (map loader ids))) as [e' He']; [by eexists|].
      apply Hps in He' as (x & Hx & He'). destruct (Hall x Hx) as [v Hv]. congruence.
Qed.

End GetResource.

Example getResource_of_ids :
  let arrayIDs :=
    Ok (ResourceApi.arrayIDs
          (ResourceApi.constructor (ResourceApi.OfArray [3; 1; 3]%Z))) in
  ResourceApi.getResource (E:=Id) arrayIDs (λ x, Ok (x + 1)%Z)
  = Ok (<[1 := 2]> (<[3 := 4]> ∅))%Z
  ∧ ResourceApi.getResource arrayIDs
      (λ x, if bool_decide (x = 1%Z) then Err x else Ok x)
    = Err 1%Z
  ∧ ResourceApi.getResource (Err 7%Z) (λ x, Ok (x + 1)%Z) = Err 7%Z.
Proof. repeat split; vm_compute; reflexivity. Qed.

(** ** What the streamers fetch and yield *)

Section Fetched.
Context {A E P Y : Type}.
Implicit Types tr : list (event A (result E P) Y).

Lemma fetched_app tr1 tr2 : fetched (tr1 ++ tr2) = fetched tr1 ++ fetched tr2.
Proof. apply omap_app. Qed.

Lemma fetched_yields (l : list Y) : fetched (A:=A) (E:=E) (P:=P) (map Yield l) = [].
Proof. induction l; [done|]. simpl. done. Qed.

End Fetched.

Section StreamerContents.
Import ResourceApi.
Context {E St T : Type}.

Lemma getMaxIDIterator_from_yields
    (pageLoader : St → option Id → result E (list T) * St) idResolver maxPageSize fuel :
  ∀ st maxID,
    let run := getMaxIDIterator_from pageLoader idResolver maxPageSize fuel st maxID in
    yields run.1 = concat (fetched run.1).
Proof.
  induction fuel as [|fuel IH]; intros st maxID; simpl; [done|].
  destruct (pageLoader st maxID) as [[page|e] st']; [|done].
  destruct (Nat.eqb_spec (length page) 0) as [Hlen|Hlen].
  { apply nil_length_inv in Hlen as ->. done. }
  destruct (shortPage maxPageSize (length page)); simpl.
  - rewrite yields_yields, fetched_yields. simpl. by rewrite app_nil_r.
  - rewrite yields_app, yields_yields, fetched_app, fetched_yields. simpl.
    f_equal. apply IH.
Qed.

Lemma getPageBasedIterator_from_yields
    (pageLoader : St → nat → result E (PageResults T) * St) maxPageSize fuel :
  ∀ st page maxPages,
    let run := getPageBasedIterator_from pageLoader maxPageSize fuel st page maxPages in
    yields run.1 = concat (map elementsOf (fetched run.1)).
Proof.
  induction fuel as [|fuel IH]; intros st page maxPages; simpl;
    destruct (morePages maxPages page); try done.
  destruct (pageLoader st page) as [[pr|e] st']; [|done].
  destruct (Nat.eqb_spec (length (elementsOf pr)) 0) as [Hlen|Hlen].
  { apply nil_length_inv in Hlen. simpl. by rewrite Hlen. }
  destruct (shortPage maxPageSize (length (elementsOf pr))); simpl.
  - rewrite yields_yields, fetched_yields. simpl. by rewrite app_nil_r.
  - rewrite yields_app, yields_yields, fetched_app, fetched_yields. simpl.
    f_equal. apply IH.
Qed.

(** X13. A sequence of either streamer yields the elements of the pages
    it fetched, page after page in the order of the fetches and each page
    in its own order: no element of a fetched page is left out or yielded
    twice, and nothing else is yielded, whenever the sequence ends. *)
Theorem streamers_yield_fetched_pages :
  (∀ (pageLoader : St → option Id → result E (list T) * St) idResolver
     maxPageSize fuel st,
     let run := getMaxIDIterator pageLoader idResolver maxPageSize fuel st in
     yields run.1 = concat (fetched run.1))
  ∧ (∀ (pageLoader : St → nat → result E (PageResults T) * St)
       maxPageSize fuel st,
       let run := getPageBasedIterator pageLoader maxPageSize fuel st in
       yields run.1 = concat (map elementsOf (fetched run.1))).
Proof.
  split.
  - intros pageLoader idResolver maxPageSize fuel st.
    apply getMaxIDIterator_from_yields.
  - intros pageLoader maxPageSize fuel st. apply getPageBasedIterator_from_yields.
Qed.

Lemma getPageBasedIterator_from_pages
    (pageLoader : St → nat → result E (PageResults T) * St) maxPageSize fuel :
  ∀ st page maxPages,
    let run := getPageBasedIterator_from pageLoader maxPageSize fuel st page maxPages in
    map fst (requests run.1) = seq page (length (requests run.1)).
Proof.
  induction fuel as [|fuel IH]; intros st page maxPages; simpl;
    destruct (morePages maxPages page); try done.
  destruct (pageLoader st page) as [[pr|e] st']; [|done].
  destruct (length (elementsOf pr) =? 0); [done|].
  destruct (shortPage maxPageSize (length (elementsOf pr))); simpl.
  - by rewrite requests_yields.
  - rewrite requests_app, requests_yields. simpl. f_equal.
    rewrite IH. by rewrite Nat.add_1_r.
Qed.

(** X14. The page-number streamer asks for the pages [1], [2], [3], ...
    in this order, each once: the [k]-th call of the page loader in a
    sequence is for page [k]. *)
Theorem getPageBasedIterator_consecutive_pages
    (pageLoader : St → nat → result E (PageResults T) * St) maxPageSize fuel st :
  let run := getPageBasedIterator pageLoader maxPageSize fuel st in
  map fst (requests run.1) = seq 1 (length (requests run.1)).
Proof.
  intros run. unfold run, getPageBasedIterator.
  apply getPageBasedIterator_from_pages.
Qed.

Lemma getMaxIDIterator_from_cursor
    (pageLoader : St → option Id → result E (list T) * St) idResolver maxPageSize fuel :
  ∀ st maxID,
    let reqs := requests (getMaxIDIterator_from pageLoader idResolver maxPageSize
                            fuel st maxID).1 in
    (∀ a r, reqs !! 0 = Some (a, r) → a = maxID)
    ∧ ∀ k a r, reqs !! S k = Some (a, r) →
        ∃ a0 page, reqs !! k = Some (a0, Ok page) ∧ page ≠ []
                 ∧ a = idResolver <$> last page.
Proof.
  induction fuel as [|fuel IH]; intros st maxID; simpl; [done|].
  destruct (pageLoader st maxID) as [[page|e] st']; simpl.
  2: { split; [by intros a r [= <- _]|]. by intros k a r. }
  destruct (Nat.eqb_spec (length page) 0) as [Hlen|Hlen]; simpl.
  { split; [by intros a r [= <- _]|]. by intros k a r. }
  destruct (shortPage maxPageSize (length page)); simpl.
  { rewrite requests_yields. split; [by intros a r [= <- _]|]. by intros k a r. }
  rewrite requests_app, requests_yields. simpl.
  destruct (IH st' (idResolver <$> last page)) as [Hhead Hnext].
  split; [by intros a r [= <- _]|]. intros [|k] a r Hk; simpl in Hk.
  - exists maxID, page. split; [done|]. split; [by destruct page|].
    by apply (Hhead a r).
  - destruct (Hnext k a r Hk) as (a0 & pg & ? & ? & ?). by exists a0, pg.
Qed.

(** X15. In a sequence of the max-id streamer the first call of the page
    loader has no cursor, and every later call has as cursor the id of the
    last element of the page fetched by the call before it, which was not
    empty. *)
Theorem getMaxIDIterator_cursor_chain
    (pageLoader : St → option Id → result E (list T) * St) idResolver
    maxPageSize fuel st :
  let reqs := requests (getMaxIDIterator pageLoader idResolver maxPageSize fuel st).1 in
  (∀ a r, reqs !! 0 = Some (a, r) → a = None)
  ∧ ∀ k a r, reqs !! S k = Some (a, r) →
      ∃ a0 page, reqs !! k = Some (a0, Ok page) ∧ page ≠ []
               ∧ a = idResolver <$> last page.
Proof.
  intros reqs. unfold reqs, getMaxIDIterator.
  apply getMaxIDIterator_from_cursor.
Qed.

End StreamerContents.

(** ** Reading a whole collection *)

Section WholeCollection.
Import ResourceApi.
Context {E T : Type}.

Lemma getPageBasedIterator_from_pageOf (all : list T) size maxPageSize
    (Hsize : 1 ≤ size) (Hmax : ∀ m, maxPageSize = Some m → m ≤ size) fuel :
  ∀ q, length (drop (q * size) all) < fuel →
    let run := getPageBasedIterator_from (E:=E) (pageOf all size) maxPageSize
                 fuel () (S q) None in
    run.2 = Finished ∧ yields run.1 = drop (q * size) all.
Proof.
  induction fuel as [|fuel IH]; intros q Hfuel; [lia|]. simpl.
  rewrite Nat.sub_0_r. unfold Batch.slice.
  rewrite <- take_drop_commute. set (rem := drop (q * size) all) in *.
  destruct (Nat.eqb_spec (length (take size rem)) 0) as [Hlen|Hlen].
  { simpl. split; [done|]. rewrite length_take in Hlen.
    destruct rem; [done|simpl in Hlen; lia]. }
  destruct (shortPage maxPageSize (length (take size rem))) eqn:Hshort.
  { simpl. rewrite yields_yields. split; [done|].
    destruct maxPageSize as [m|]; [|done]. simpl in Hshort.
    apply Nat.ltb_lt in Hshort. specialize (Hmax m eq_refl).
    rewrite length_take in Hshort. apply take_ge. lia. }
  unfold after. simpl. rewrite yields_app, yields_yields.
  rewrite length_take in Hlen.
  destruct (IH (S q)) as [Hfin Hy].
  { replace (S q * size) with (q * size + size) by lia.
    rewrite <- drop_drop. fold rem. rewrite length_drop. lia. }
  rewrite Nat.add_1_r. split; [done|]. rewrite Hy.
  replace (S q * size) with (q * size + size) by lia.
  rewrite <- drop_drop. fold rem. apply take_drop.
Qed.

(** X16. Against a server that cuts a collection in pages of [size]
    elements, [size] at least [1], the page-number streamer with no
    full-page size, or one that is not above [size], yields the whole
    collection, every element once and in order, and returns; more loop
    rounds than the collection has elements are enough. *)
Theorem getPageBasedIterator_reads_all (all : list T) size maxPageSize fuel :
  1 ≤ size → (∀ m, maxPageSize = Some m → m ≤ size) → length all < fuel →
  let run := getPageBasedIterator (E:=E) (pageOf all size) maxPageSize fuel () in
  run.2 = Finished ∧ yields run.1 = all.
Proof.
  intros Hsize Hmax Hfuel.
  apply (getPageBasedIterator_from_pageOf all size maxPageSize Hsize Hmax fuel 0).
  simpl. by rewrite drop_0.
Qed.

Lemma filter_none (Q : T → Prop) `{!∀ x, Decision (Q x)} (l : list T) :
  Forall (λ x, ¬ Q x) l → filter Q l = [].
Proof.
  induction 1 as [|x l Hx _ IH]; [done|]. by rewrite filter_cons_False.
Qed.

Lemma filter_all (Q : T → Prop) `{!∀ x, Decision (Q x)} (l : list T) :
  Forall Q l → filter Q l = l.
Proof.
  induction 1 as [|x l Hx _ IH]; [done|]. rewrite filter_cons_True by done.
  by f_equal.
Qed.

Lemma olderThan_cursor (idResolver : T → Id) (done' rem : list T) maxID :
  Descending idResolver (done' ++ rem) →
  (maxID = None ∧ done' = [])
  ∨ (∃ e, last done' = Some e ∧ maxID = Some (idResolver e)) →
  olderThan idResolver maxID (done' ++ rem) = rem.
Proof.
  intros Hdesc [[-> ->]|(e & Hlast & ->)]; [done|]. simpl.
  rewrite filter_app.
  assert (Hle : length done' = S (length done' - 1))
    by (destruct done'; [done|simpl; lia]).
  rewrite last_lookup in Hlast.
  replace (pred (length done')) with (length done' - 1) in Hlast by lia.
  assert (Hdone : filter (λ x, (idResolver x < idResolver e)%Z) done' = []).
  { apply filter_none. apply Forall_lookup. intros i x Hi.
    pose proof (lookup_lt_Some _ _ _ Hi) as Hlt.
    destruct (decide (i = length done' - 1)) as [->|Hne].
    - assert (x = e) as -> by congruence. lia.
    - assert (idResolver e < idResolver x)%Z; [|lia].
      apply (Hdesc i (length done' - 1)); [lia| |];
        by rewrite lookup_app_l by lia. }
  assert (Hrem : filter (λ x, (idResolver x < idResolver e)%Z) rem = rem).
  { apply filter_all. apply Forall_lookup. intros j x Hj.
    apply (Hdesc (length done' - 1) (length done' + j)); [lia| |].
    - by rewrite lookup_app_l by lia.
    - rewrite lookup_app_r by lia. by replace (length done' + j - length done') with j by lia. }
  by rewrite Hdone, Hrem.
Qed.

Lemma getMaxIDIterator_from_before (idResolver : T → Id) (feed : list T)
    size maxPageSize (Hsize : 1 ≤ size)
    (Hmax : ∀ m, maxPageSize = Some m → m ≤ size)
    (Hdesc : Descending idResolver feed) fuel :
  ∀ done' rem maxID, feed = done' ++ rem →
    (maxID = None ∧ done' = [])
    ∨ (∃ e, last done' = Some e ∧ maxID = Some (idResolver e)) →
    length rem < fuel →
    let run := getMaxIDIterator_from (E:=E) (before idResolver feed size)
                 idResolver maxPageSize fuel () maxID in
    run.2 = Finished ∧ yields run.1 = rem.
Proof.
  induction fuel as [|fuel IH]; intros done' rem maxID Hfeed Hcur Hfuel; [lia|].
  assert (Hold : olderThan idResolver maxID feed = rem)
    by (rewrite Hfeed; apply olderThan_cursor; [by rewrite <- Hfeed|done]).
  cbn [getMaxIDIterator_from before]. rewrite Hold.
  destruct (Nat.eqb_spec (length (take size rem)) 0) as [Hlen|Hlen].
  { simpl. split; [done|]. rewrite length_take in Hlen.
    destruct rem; [done|simpl in Hlen; lia]. }
  destruct (shortPage maxPageSize (length (take size rem))) eqn:Hshort.
  { simpl. rewrite yields_yields. split; [done|].
    destruct maxPageSize as [m|]; [|done]. simpl in Hshort.
    apply Nat.ltb_lt in Hshort. specialize (Hmax m eq_refl).
    rewrite length_take in Hshort. apply take_ge. lia. }
  unfold after. simpl. rewrite yields_app, yields_yields.
  rewrite length_take in Hlen.
  destruct (IH (done' ++ take size rem) (drop size rem)
              (idResolver <$> last (take size rem))) as [Hfin Hy].
  { by rewrite <- app_assoc, take_drop. }
  { right. destruct (last (take size rem)) as [e|] eqn:Hlast.
    - exists e. split; [|done]. rewrite last_app, Hlast. done.
    - apply last_None in Hlast. apply (f_equal length) in Hlast.
      rewrite length_take in Hlast. simpl in Hlast. lia. }
  { rewrite length_drop. lia. }
  split; [done|]. rewrite Hy. apply take_drop.
Qed.

(** X17. Against a server that answers with the first [size] elements
    below the cursor of a feed whose ids go down from element to element,
    [size] at least [1], the max-id streamer with no full-page size, or
    one that is not above [size], yields the whole feed, every element
    once and in order, and returns; more loop rounds than the feed has
    elements are enough. *)
Theorem getMaxIDIterator_reads_all (idResolver : T → Id) (feed : list T)
    size maxPageSize fuel :
  1 ≤ size → (∀ m, maxPageSize = Some m → m ≤ size) →
  Descending idResolver feed → length feed < fuel →
  let run := getMaxIDIterator (E:=E) (before idResolver feed size) idResolver
               maxPageSize fuel () in
  run.2 = Finished ∧ yields run.1 = feed.
Proof.
  intros Hsize Hmax Hdesc Hfuel.
  apply (getMaxIDIterator_from_before idResolver feed size maxPageSize Hsize Hmax
           Hdesc fuel [] feed None); [done|by left|done].
Qed.

End WholeCollection.

(** X16, at an instance: seven elements in pages of three. *)
Lemma getPageBasedIterator_reads_all_witness :
  1 ≤ 3 ∧ (∀ m, Some 3 = Some m → m ≤ 3) ∧ length [1; 2; 3; 4; 5; 6; 7]%Z < 8 ∧
  let run := ResourceApi.getPageBasedIterator (E:=unit)
               (pageOf [1; 2; 3; 4; 5; 6; 7]%Z 3) (Some 3) 8 () in
  run.2 = Finished ∧ yields run.1 = [1; 2; 3; 4; 5; 6; 7]%Z.
Proof.
  assert (Hmax : ∀ m, Some 3 = Some m → m ≤ 3) by (intros m [= <-]; lia).
  split; [lia|]. split; [exact Hmax|]. split; [simpl; lia|].
  apply (getPageBasedIterator_reads_all (E:=unit) [1; 2; 3; 4; 5; 6; 7]%Z 3 (Some 3) 8);
    [lia|exact Hmax|simpl; lia].
Defined.

(** X17, at an instance: a feed of five elements in pages of two. *)
Lemma getMaxIDIterator_reads_all_witness :
  let feed := [{| id := 50 |}; {| id := 40 |}; {| id := 30 |}; {| id := 20 |};
               {| id := 10 |}]%Z in
  1 ≤ 2 ∧ (∀ m, Some 2 = Some m → m ≤ 2) ∧ Descending (λ e, id e) feed
  ∧ length feed < 6 ∧
  let run := ResourceApi.getMaxIDIterator (E:=unit) (before (λ e, id e) feed 2)
               (λ e, id e) (Some 2) 6 () in
  run.2 = Finished ∧ yields run.1 = feed.
Proof.
  intros feed.
  assert (Hmax : ∀ m, Some 2 = Some m → m ≤ 2) by (intros m [= <-]; lia).
  assert (Hdesc : Descending (λ e, id e) feed).
  { intros i j a b Hij Hi Hj.
    do 5 (destruct i as [|i]; [simpl in Hi; injection Hi as <-;
      do 5 (destruct j as [|j]; [first [lia | simpl in Hj; injection Hj as <-; simpl; lia]|]);
      done|]).
    done. }
  split; [lia|]. split; [exact Hmax|]. split; [exact Hdesc|]. split; [simpl; lia|].
  apply (getMaxIDIterator_reads_all (E:=unit) (λ e, id e) feed 2 (Some 2) 6);
    [lia|exact Hmax|exact Hdesc|simpl; lia].
Defined.

Example getMaxIDIterator_feed_trace :
  map fst (requests (ResourceApi.getMaxIDIterator (E:=unit)
    (before (λ e, id e) [{| id := 50 |}; {| id := 40 |}; {| id := 30 |};
                         {| id := 20 |}; {| id := 10 |}]%Z 2)
    (λ e, id e) (Some 2) 6 ()).1)
  = [None; Some 40; Some 20]%Z.
Proof. reflexivity. Qed.

(** ** Sequences without an end *)

Section Unbounded.
Import ResourceApi.
Context {E St T : Type}.

(** X18. When every page a page loader answers with is neither empty nor
    short, and carries no [maxPages] hint, a sequence never returns: each
    loop round fetches one more page, whatever the bound on the rounds. *)
Theorem streamers_unbounded maxPageSize :
  (∀ pageLoader : St → nat → result E (PageResults T) * St,
     (∀ st page, ∃ pageResults st',
        pageLoader st page = (Ok pageResults, st')
        ∧ elementsOf pageResults ≠ []
        ∧ shortPage maxPageSize (length (elementsOf pageResults)) = false
        ∧ captureMaxPages pageResults None = None) →
     ∀ fuel st,
       let run := getPageBasedIterator pageLoader maxPageSize fuel st in
       run.2 = Unfinished ∧ length (requests run.1) = fuel)
  ∧ (∀ (pageLoader : St → option Id → result E (list T) * St) idResolver,
       (∀ st maxID, ∃ page st',
          pageLoader st maxID = (Ok page, st')
          ∧ page ≠ [] ∧ shortPage maxPageSize (length page) = false) →
       ∀ fuel st,
         let run := getMaxIDIterator pageLoader idResolver maxPageSize fuel st in
         run.2 = Unfinished ∧ length (requests run.1) = fuel).
Proof.
  split.
  - intros pageLoader Hfull fuel st. unfold getPageBasedIterator. generalize 1.
    revert st. induction fuel as [|fuel IH]; intros st page; [done|]. simpl.
    destruct (Hfull st page) as (pr & st' & -> & Hne & -> & ->).
    destruct (Nat.eqb_spec (length (elementsOf pr)) 0) as [Hlen|_];
      [by apply nil_length_inv in Hlen|].
    unfold after. simpl. rewrite requests_app, requests_yields. simpl.
    destruct (IH st' (page + 1)) as [-> ->]. done.
  - intros pageLoader idResolver Hfull fuel st. unfold getMaxIDIterator.
    generalize (@None Id). revert st.
    induction fuel as [|fuel IH]; intros st maxID; [done|]. simpl.
    destruct (Hfull st maxID) as (page & st' & -> & Hne & ->).
    destruct (Nat.eqb_spec (length page) 0) as [Hlen|_];
      [by apply nil_length_inv in Hlen|].
    unfold after. simpl. rewrite requests_app, requests_yields. simpl.
    destruct (IH st' (idResolver <$> last page)) as [-> ->]. done.
Qed.

End Unbounded.

(** X18, at an instance: a page loader whose page [n] holds the element
    [n], and the same pages served whatever the cursor. *)
Lemma streamers_unbounded_witness :
  (∀ fuel,
     let run := ResourceApi.getPageBasedIterator endless None fuel () in
     run.2 = Unfinished ∧ length (requests run.1) = fuel)
  ∧ (∀ fuel,
       let run := ResourceApi.getMaxIDIterator (E:=unit) (St:=unit)
                    (λ st _, (Ok [7%Z], st)) (λ x, x) None fuel () in
       run.2 = Unfinished ∧ length (requests run.1) = fuel).
Proof.
  split.
  - intros fuel.
    apply (proj1 (streamers_unbounded (E:=unit) (St:=unit) (T:=nat) None) endless).
    intros st page. by exists (ResourceApi.Elements [page]), st.
  - intros fuel.
    apply (proj2 (streamers_unbounded (E:=unit) (St:=unit) (T:=Id) None)
             (λ st _, (Ok [7%Z], st)) (λ x, x)).
    intros st maxID. by exists [7%Z], st.
Defined.

(** ** The callers' own loops *)

Section MapEntries.
Context {V : Type}.
Implicit Types m : list (Id * V).

Lemma JSMap_get_None m k : JSMap.get m k = None ↔ k ∉ JSMap.keys m.
Proof.
  induction m as [|[k' v] m IH]; simpl; [set_solver|].
  destruct (bool_decide_reflect (k' = k)) as [->|Hne]; [set_solver|].
  rewrite IH. set_solver.
Qed.

Lemma JSMap_get_set m k v k' :
  JSMap.get (JSMap.set k v m) k'
  = if bool_decide (k = k') then Some v else JSMap.get m k'.
Proof.
  induction m as [|[k0 v0] m IH]; simpl; [done|].
  destruct (bool_decide_reflect (k0 = k)) as [->|Hne]; simpl.
  - destruct (bool_decide_reflect (k = k')) as [->|?]; done.
  - rewrite IH. destruct (bool_decide_reflect (k0 = k')) as [->|?]; [|done].
    by rewrite bool_decide_eq_false_2 by congruence.
Qed.

Lemma JSMap_keys_set m k v :
  JSMap.keys (JSMap.set k v m)
  = if decide (k ∈ JSMap.keys m) then JSMap.keys m else JSMap.keys m ++ [k].
Proof.
  unfold JSMap.keys. induction m as [|[k0 v0] m IH]; simpl; [done|].
  destruct (bool_decide_reflect (k0 = k)) as [->|Hne]; simpl.
  - destruct (decide (k ∈ k :: map fst m)) as [_|Hn]; [done|set_solver].
  - rewrite IH. destruct (decide (k ∈ map fst m)) as [Hin|Hn].
    + destruct (decide (k ∈ k0 :: map fst m)) as [_|Hn']; [done|set_solver].
    + destruct (decide (k ∈ k0 :: map fst m)) as [Hin'|_]; [|done].
      apply elem_of_cons in Hin' as [?|?]; congruence.
Qed.

End MapEntries.

Lemma firstOccurrences_snoc a x :
  firstOccurrences (a ++ [x])
  = if decide (x ∈ a) then firstOccurrences a else firstOccurrences a ++ [x].
Proof.
  induction a as [|y a IH]; simpl; [done|]. rewrite IH.
  destruct (decide (x ∈ a)) as [Hin|Hn].
  - destruct (decide (x ∈ y :: a)) as [_|Hn']; [done|set_solver].
  - rewrite filter_app, filter_cons, filter_nil.
    destruct (decide (x ≠ y)) as [Hne|Heq].
    + destruct (decide (x ∈ y :: a)) as [Hin'|_]; [|done].
      apply elem_of_cons in Hin' as [?|?]; congruence.
    + destruct (decide (x ∈ y :: a)) as [_|Hn']; [by rewrite app_nil_r|].
      apply dec_stable in Heq. set_solver.
Qed.

Section FactionLoops.
Import Factions.

Lemma getWarsForFaction_snoc wars w faction :
  getWarsForFaction (wars ++ [w]) faction
  = let forFaction := getWarsForFaction wars faction in
    if bool_decide (faction_id w = faction)
    then JSSet.add (against_id w) forFaction
    else if bool_decide (against_id w = faction)
    then JSSet.add (faction_id w) forFaction
    else forFaction.
Proof. unfold getWarsForFaction. by rewrite foldl_app. Qed.

(** X19. The set [getWarsForFaction] returns for a faction holds the
    other side of every war the faction is a side of, and nothing else,
    each id once. *)
Theorem getWarsForFaction_opponents (wars : list War) (faction : Id) :
  let forFaction := JSSet.entries (getWarsForFaction wars faction) in
  NoDup forFaction
  ∧ ∀ x, x ∈ forFaction ↔
      ∃ w, w ∈ wars ∧ ((faction_id w = faction ∧ against_id w = x)
                       ∨ (against_id w = faction ∧ faction_id w = x)).
Proof.
  simpl. induction wars as [|w wars [IHnd IHin]] using rev_ind.
  - split; [apply NoDup_nil_2|]. intros x. split; [by intros ?%elem_of_nil|].
    by intros (w & ?%elem_of_nil & _).
  - rewrite getWarsForFaction_snoc. cbv zeta. split.
    + repeat case_bool_decide; try done; by apply JSSet_add_NoDup.
    + intros x.
      assert (Hadd : ∀ y, x ∈ JSSet.entries
                              (JSSet.add y (getWarsForFaction wars faction))
                          ↔ x = y ∨ x ∈ JSSet.entries (getWarsForFaction wars faction)).
      { intros y. rewrite JSSet_add_entries. case_decide; set_solver. }
      destruct (bool_decide_reflect (faction_id w = faction)) as [Hf|Hf];
        [|destruct (bool_decide_reflect (against_id w = faction)) as [Ha|Ha]];
        rewrite ?Hadd, IHin; split.
      * intros [->|(w' & Hw' & Hside)]; [exists w|exists w']; set_solver.
      * intros (w' & [Hw'| ->%list_elem_of_singleton]%elem_of_app & Hside).
        -- right. by exists w'.
        -- left. destruct Hside as [[_ <-]|[Ha <-]]; congruence.
      * intros [->|(w' & Hw' & Hside)]; [exists w|exists w']; set_solver.
      * intros (w' & [Hw'| ->%list_elem_of_singleton]%elem_of_app & Hside).
        -- right. by exists w'.
        -- left. destruct Hside as [[? _]|[_ <-]]; done.
      * intros (w' & Hw' & Hside). exists w'. set_solver.
      * intros (w' & [Hw'| ->%list_elem_of_singleton]%elem_of_app & Hside).
        -- by exists w'.
        -- destruct Hside as [[? _]|[? _]]; done.
Qed.

Lemma groupSystems_snoc key systems s :
  groupSystems key (systems ++ [s])
  = let groups := groupSystems key systems in
    match JSMap.get groups (key s) with
    | None => JSMap.set (key s) [s] groups
    | Some owned => JSMap.set (key s) (owned ++ [s]) groups
    end.
Proof. unfold groupSystems. by rewrite foldl_app. Qed.

Lemma groupSystems_keys key systems :
  JSMap.keys (groupSystems key systems) = firstOccurrences (map key systems).
Proof.
  induction systems as [|s systems IH] using rev_ind; [done|].
  rewrite groupSystems_snoc, map_app. change (map key [s]) with [key s].
  rewrite firstOccurrences_snoc. cbv zeta.
  destruct (JSMap.get _ (key s)) eqn:Hget; rewrite JSMap_keys_set, IH;
    destruct (decide (key s ∈ firstOccurrences (map key systems))) as [Hin|Hn].
  - by rewrite decide_True by by apply elem_of_firstOccurrences.
  - apply mk_is_Some, not_eq_None_Some in Hget. rewrite JSMap_get_None, IH in Hget.
    by destruct Hget.
  - apply JSMap_get_None in Hget. by rewrite IH in Hget.
  - by rewrite decide_False by by rewrite <-elem_of_firstOccurrences.
Qed.

Lemma groupSystems_get key systems faction :
  JSMap.get (groupSystems key systems) faction
  = if decide (faction ∈ map key systems)
    then Some (filter (λ s, key s = faction) systems) else None.
Proof.
  induction systems as [|s systems IH] using rev_ind; [done|].
  rewrite groupSystems_snoc, map_app, filter_app, filter_cons, filter_nil.
  cbv zeta. simpl.
  assert (Hhere : JSMap.get (groupSystems key systems) (key s)
                  = if decide (key s ∈ map key systems)
                    then Some (filter (λ s', key s' = key s) systems) else None).
  { clear IH. induction systems as [|s' systems IH] using rev_ind; [done|].
    rewrite groupSystems_snoc, map_app, filter_app, filter_cons, filter_nil.
    cbv zeta. simpl.
    destruct (JSMap.get (groupSystems key systems) (key s')) eqn:Hget';
      rewrite JSMap_get_set;
      (destruct (bool_decide_reflect (key s' = key s)) as [Heq|Hne];
       [rewrite decide_True by set_solver; rewrite decide_True by done
       |rewrite IH, (decide_False (P := key s' = key s)) by done;
        rewrite app_nil_r;
        destruct (decide (key s ∈ map key systems));
          [rewrite decide_True by set_solver|rewrite decide_False by set_solver];
          done]).
    - rewrite Heq in Hget'. rewrite IH in Hget'. case_decide; by simplify_eq.
    - rewrite Heq in Hget'. rewrite IH in Hget'. case_decide; [done|].
      rewrite filter_none; [done|]. apply Forall_forall. intros x Hx Hk.
      apply H. rewrite <-Hk. apply list_elem_of_fmap. by exists x. }
  rewrite Hhere.
  destruct (decide (key s ∈ map key systems)) as [Hin|Hn];
    rewrite JSMap_get_set;
    (destruct (bool_decide_reflect (key s = faction)) as [<-|Hne];
     [rewrite decide_True by set_solver; rewrite decide_True by done; try done
     |rewrite IH, (decide_False (P := key s = faction)) by done;
      rewrite app_nil_r;
      destruct (decide (faction ∈ map key systems));
        [rewrite decide_True by set_solver|rewrite decide_False by set_solver];
        done]).
  rewrite filter_none; [done|]. apply Forall_forall. intros x Hx Hk.
  apply Hn. rewrite <-Hk. apply list_elem_of_fmap. by exists x.
Qed.

(** X20. [IteratedFactions.owned] and [IteratedFactions.occupied] yield
    one entry for each faction that holds a system, in the order the
    factions first occur in the response, and the systems of an entry are
    those [getOwnedSystems] and [getOccupiedSystems] select for its
    faction, in the order of the response. *)
Theorem owned_occupied_groups (systems : list System) :
  owned systems
  = map (λ faction, (faction, getOwnedSystems systems faction))
      (firstOccurrences (map owner_faction_id systems))
  ∧ occupied systems
    = map (λ faction, (faction, getOccupiedSystems systems faction))
        (firstOccurrences (map occupier_faction_id systems)).
Proof.
  assert (Hgroups : ∀ key,
    groupSystems key systems
    = map (λ faction, (faction, filter (λ s, key s = faction) systems))
        (firstOccurrences (map key systems))).
  { intros key. rewrite <-groupSystems_keys.
    assert (Hget : ∀ k v, (k, v) ∈ groupSystems key systems →
                          v = filter (λ s, key s = k) systems).
    { intros k v Hkv.
      assert (Hnd : NoDup (JSMap.keys (groupSystems key systems)))
        by (rewrite groupSystems_keys; apply NoDup_firstOccurrences).
      pose proof (groupSystems_get key systems k) as Hk.
      revert Hnd Hkv Hk. generalize (groupSystems key systems) as m.
      induction m as [|[k' v'] m IH]; simpl; [by intros _ ?%elem_of_nil|].
      intros [Hk' Hnd]%NoDup_cons [Heq|Hin]%elem_of_cons.
      - simplify_eq. rewrite bool_decide_eq_true_2 by done.
        case_decide; congruence.
      - destruct (bool_decide_reflect (k' = k)) as [->|Hne]; [|by apply IH].
        exfalso. apply Hk'. apply list_elem_of_fmap. by exists (k, v). }
    revert Hget. generalize (groupSystems key systems) as m.
    induction m as [|[k v] m IH]; [done|]. intros Hget. simpl. f_equal.
    - f_equal. apply Hget. set_solver.
    - apply IH. intros k' v' Hin. apply Hget. set_solver. }
  split; apply Hgroups.
Qed.

End FactionLoops.

Section StructureMarket.
Import Structures.

Lemma types_from_firstOccurrences orders :
  ∀ seen, types_from orders seen
          = filter (λ y, y ∉ JSSet.entries seen)
              (firstOccurrences (map type_id orders)).
Proof.
  induction orders as [|o orders IH]; intros seen; [done|].
  cbn [types_from map firstOccurrences]. unfold JSSet.has.
  rewrite filter_cons.
  destruct (bool_decide_reflect (type_id o ∈ JSSet.entries seen)) as [Hin|Hn];
    cbn [negb].
  - rewrite decide_False by (by intros Hn; apply Hn).
    rewrite IH, list_filter_filter. apply list_filter_iff. intros y.
    split; [|by intros [? _]]. intros Hy. split; [done|]. by intros ->.
  - rewrite decide_True by done. f_equal.
    rewrite IH, list_filter_filter. apply list_filter_iff. intros y.
    rewrite JSSet_add_entries, decide_False by done. set_solver.
Qed.

(** X21. [StructureMarket.types] yields the type id of an order when no
    order before it had that type: the type ids of the orders, each once, in
    the order they first occur. *)
Theorem types_first_occurrences (orders : list Order) :
  types orders = firstOccurrences (map type_id orders)
  ∧ NoDup (types orders)
  ∧ ∀ typeID, typeID ∈ types orders ↔ ∃ o, o ∈ orders ∧ type_id o = typeID.
Proof.
  assert (Heq : types orders = firstOccurrences (map type_id orders)).
  { unfold types. rewrite types_from_firstOccurrences. apply filter_all.
    apply Forall_forall. by intros y _ ?%elem_of_nil. }
  rewrite Heq. split; [done|]. split; [apply NoDup_firstOccurrences|].
  intros typeID. rewrite elem_of_firstOccurrences.
  change (map type_id orders) with (type_id <$> orders).
  rewrite list_elem_of_fmap. split; intros (o & ? & ?); by exists o.
Qed.

Lemma getOrdersFor_filter orders typeID :
  getOrdersFor orders typeID all = filter (λ o, type_id o = typeID) orders
  ∧ getOrdersFor orders typeID buy
    = filter (λ o, type_id o = typeID ∧ is_buy_order o = true) orders
  ∧ getOrdersFor orders typeID sell
    = filter (λ o, type_id o = typeID ∧ is_buy_order o = false) orders.
Proof.
  unfold getOrdersFor.
  induction orders as [|o orders (IHa & IHb & IHs)] using rev_ind; [done|].
  rewrite !foldl_app, !filter_app, IHa, IHb, IHs. simpl.
  rewrite !filter_cons, !filter_nil.
  destruct (bool_decide_reflect (typeID = type_id o)) as [->|Hne],
    (is_buy_order o); simpl;
    repeat (first [rewrite decide_True by done
                  |rewrite decide_False by (first [by intros [? ?]|congruence])]);
    by rewrite ?app_nil_r.
Qed.

(** X22. [ordersFor] collects the orders of the type, in the order the
    sequence delivers them; [buyOrdersFor] collects the buy orders among
    them and [sellOrdersFor] the others, so that every order of the type is
    in exactly one of the two. *)
Theorem getOrdersFor_buy_sell (orders : list Order) (typeID : Id) :
  ordersFor orders typeID = filter (λ o, type_id o = typeID) orders
  ∧ buyOrdersFor orders typeID
    = filter (λ o, is_buy_order o = true) (ordersFor orders typeID)
  ∧ sellOrdersFor orders typeID
    = filter (λ o, is_buy_order o = false) (ordersFor orders typeID)
  ∧ length (buyOrdersFor orders typeID) + length (sellOrdersFor orders typeID)
    = length (ordersFor orders typeID).
Proof.
  unfold ordersFor, buyOrdersFor, sellOrdersFor.
  destruct (getOrdersFor_filter orders typeID) as (-> & -> & ->).
  rewrite !list_filter_filter.
  split; [done|].
  split; [apply list_filter_iff; tauto|].
  split; [apply list_filter_iff; tauto|].
  induction orders as [|o orders IH]; [done|]. rewrite !filter_cons.
  destruct (decide (type_id o = typeID)) as [Ht|Ht], (is_buy_order o) eqn:Hb;
    repeat (first [rewrite decide_True by (by rewrite ?Hb)
                  |rewrite decide_False by (rewrite ?Hb; by intros [? ?])]);
    simpl; lia.
Qed.

End StructureMarket.

Section CharAndCorp.
Import Structures.
Context {E : Type}.
Variable ceo_id corporation_id : Id → result E Id.
Variable charID_ corpID_ : IdSource E.

(** X23. With neither the character nor the corporation id given,
    [charID()] and [corpID()] call each other until the call stack is
    exhausted: both reject with a [RangeError], whatever room the stack
    has and whatever the requests would answer. With one of the two
    given, two nested calls are enough, the outcome does not depend on the
    room of the stack and is never a [RangeError]; from a number for the
    one id the other is what the request for it answers. *)
Theorem charID_corpID_settle :
  let charID := charID ceo_id corporation_id charID_ corpID_ in
  let corpID := corpID ceo_id corporation_id charID_ corpID_ in
  (charID_ = Undefined ∧ corpID_ = Undefined →
     ∀ depth, charID depth = Err RangeError ∧ corpID depth = Err RangeError)
  ∧ (¬ (charID_ = Undefined ∧ corpID_ = Undefined) →
     charID 2 ≠ Err RangeError ∧ corpID 2 ≠ Err RangeError
     ∧ ∀ depth, 2 ≤ depth → charID depth = charID 2 ∧ corpID depth = corpID 2)
  ∧ (charID_ = Undefined → ∀ n, corpID_ = Number n →
     charID 2 = awaited (ceo_id n))
  ∧ (corpID_ = Undefined → ∀ n, charID_ = Number n →
     corpID 2 = awaited (corporation_id n)).
Proof.
  cbv zeta. split; [|split; [|split]].
  - intros [-> ->] depth. induction depth as [|depth [IHc IHp]]; [done|].
    simpl. by rewrite IHc, IHp.
  - intros Hgiven. split; [|split].
    + destruct charID_, corpID_; simpl; unfold awaited;
        try (destruct Hgiven; done); repeat case_match; congruence.
    + destruct charID_, corpID_; simpl; unfold awaited;
        try (destruct Hgiven; done); repeat case_match; congruence.
    + intros depth Hdepth. destruct depth as [|[|depth]]; [lia|lia|].
      destruct charID_, corpID_; simpl; try done. destruct Hgiven; done.
  - by intros -> n ->.
  - by intros -> n ->.
Qed.

End CharAndCorp.

Section KillmailLinks.
Import Killmails.
Context {H : Type}.
Implicit Types ids : list (LinkOrTuple (H:=H)).

Lemma makeKillmails_snoc ids e :
  idHashes (makeKillmails (ids ++ [e]))
  = JSMap.set (idOf e)
      (match e with
       | OfLink link => killmail_hash link
       | OfTuple tuple => tuple.2
       end)
      (idHashes (makeKillmails ids)).
Proof. unfold makeKillmails. simpl. rewrite foldl_app. by destruct e. Qed.

Lemma makeKillmails_keys ids :
  JSMap.keys (idHashes (makeKillmails ids)) = firstOccurrences (map idOf ids).
Proof.
  induction ids as [|e ids IH] using rev_ind; [done|].
  rewrite makeKillmails_snoc, JSMap_keys_set, IH, map_app.
  change (map idOf [e]) with [idOf e]. rewrite firstOccurrences_snoc.
  destruct (decide (idOf e ∈ firstOccurrences (map idOf ids))) as [Hin|Hn].
  - by rewrite decide_True by by apply elem_of_firstOccurrences.
  - by rewrite decide_False by by rewrite <-elem_of_firstOccurrences.
Qed.

Lemma makeKillmails_get ids id :
  JSMap.get (idHashes (makeKillmails ids)) id = lastHash ids id.
Proof.
  induction ids as [|e ids IH] using rev_ind; [done|].
  rewrite makeKillmails_snoc, JSMap_get_set, IH. unfold lastHash.
  rewrite omap_app. destruct e as [link|tuple]; simpl;
    (case_bool_decide; simpl; [by rewrite last_snoc|by rewrite app_nil_r]).
Qed.

(** X24. [makeKillmails] over an array of links and tuples files every
    element under its id: the ids of the resource are those of the array,
    each once, in the order they first occur, and the hash of an id is the
    one its last element gives. *)
Theorem makeKillmails_last_hash (ids : list (LinkOrTuple (H:=H))) :
  let this := makeKillmails ids in
  ResourceApi.arrayIDs (base this) = firstOccurrences (map idOf ids)
  ∧ JSMap.keys (idHashes this) = firstOccurrences (map idOf ids)
  ∧ ∀ id, JSMap.get (idHashes this) id = lastHash ids id.
Proof.
  cbv zeta. split; [|split; [apply makeKillmails_keys|apply makeKillmails_get]].
  unfold makeKillmails at 1. cbn [base constructor ResourceApi.constructor
                                   ResourceApi.arrayIDs].
  rewrite JSSet_from_array. fold (makeKillmails ids).
  change (foldl _ [] ids) with (idHashes (makeKillmails ids)).
  rewrite makeKillmails_keys.
  apply firstOccurrences_NoDup, NoDup_firstOccurrences.
Qed.

Lemma JSMap_set_fresh {V : Type} (m : list (Id * V)) k v :
  k ∉ JSMap.keys m → JSMap.set k v m = m ++ [(k, v)].
Proof.
  unfold JSMap.keys. induction m as [|[k' v'] m IH]; simpl; [done|].
  intros Hk. rewrite bool_decide_eq_false_2 by set_solver.
  rewrite IH by set_solver. done.
Qed.

(** X25. [links] holds, for every entry of the map of the hashes and in
    its order, the link made of the id and the hash of the entry. *)
Theorem links_entries (this : MappedKillmails (H:=H)) :
  NoDup (JSMap.keys (idHashes this)) →
  links this
  = map (λ pair, (pair.1, {| killmail_id := pair.1; killmail_hash := pair.2 |}))
      (idHashes this).
Proof.
  unfold links. generalize (idHashes this) as m. intros m Hnd.
  induction m as [|pair m IH] using rev_ind; [done|].
  rewrite foldl_app, map_app. simpl. unfold JSMap.keys in Hnd.
  rewrite map_app in Hnd. apply NoDup_app in Hnd as (Hm & Hfresh & _).
  rewrite IH by done. apply JSMap_set_fresh. unfold JSMap.keys.
  rewrite map_map. simpl. intros Hin. apply (Hfresh pair.1); [done|].
  simpl. set_solver.
Qed.

End KillmailLinks.

(** X25, at an instance: two tuples and a link that replaces the hash of
    the first tuple. *)
Lemma links_entries_witness :
  let this := Killmails.makeKillmails
                [Killmails.OfTuple (7, 1)%Z; Killmails.OfTuple (3, 2)%Z;
                 Killmails.OfLink {| Killmails.killmail_id := 7;
                                     Killmails.killmail_hash := 5%Z |}] in
  NoDup (JSMap.keys (Killmails.idHashes this))
  ∧ Killmails.links this
    = [(7, {| Killmails.killmail_id := 7; Killmails.killmail_hash := 5 |});
       (3, {| Killmails.killmail_id := 3; Killmails.killmail_hash := 2 |})]%Z.
Proof.
  cbv zeta.
  assert (Hnd : NoDup [7; 3]%Z)
    by (apply NoDup_cons_2; [set_solver|apply NoDup_singleton]).
  split; [exact Hnd|].
  apply (links_entries
           (Killmails.makeKillmails
              [Killmails.OfTuple (7, 1)%Z; Killmails.OfTuple (3, 2)%Z;
               Killmails.OfLink {| Killmails.killmail_id := 7;
                                   Killmails.killmail_hash := 5%Z |}])).
  exact Hnd.
Defined.
